(** * TimeWindowDeque: a time-windowed sliding aggregation buffer

    Shallow embedding of the two [TimeWindowDeque] classes of
    [src/components/Time-Window-Deque]: the array-based one
    (TimeWindowDeque-array-impl.ts) and the circular-buffer one
    (Time-Window-Deque.ts, built on the private class [CircularDeque]).

    Modelling conventions.
    - A JavaScript [number] that holds a price, a timestamp, a cutoff or a
      sum is an IEEE-754 binary64 value: Rocq's primitive [float], with its
      rounding, its infinities and its NaN.  [a < b] is [PrimFloat.ltb a b]
      and [a >= b] is [PrimFloat.leb b a]; both are [false] when an operand
      is NaN.  A decimal literal denotes the nearest double, as in
      JavaScript.
    - A [number] that is a counter or an index ([head], [tail], [_size],
      [capacity], array lengths) is an integer [Z], and JavaScript's [%] on
      such integers is [Z.rem].  The constructor's argument is an integer,
      as its use in [new Array(capacity)] requires.  Counters stay far
      below 2^53, where a double holds every integer exactly; the bound
      2^32 - 1 on array lengths is not modelled.
    - [undefined] is [None]; an array of [T | undefined] is a list of
      [option T]; [null] as the result of a query is [None] too.
    - Methods mutate [this]: they are computations in a state monad whose
      results are JavaScript completions, a normal return or a thrown
      error.  The only possible throw is the [TypeError] of reading a
      property of [undefined].
    - A [while] loop runs on fuel; [OutOfFuel] is the completion of a loop
      that did not finish, and [expire] is proved never to end that way. *)

From Stdlib Require Import ZArith Floats Lia Bool List Sorted.
From stdpp Require Import base tactics option list strings.
Import ListNotations.

Set Warnings "-inexact-float".
Local Open Scope Z_scope.

(** ** Completions and the method monad *)

Inductive js_error : Type :=
  | TypeError.  (* reading a property of [undefined] *)

Inductive completion (A : Type) : Type :=
  | Normal (a : A)
  | Throw (e : js_error)
  | OutOfFuel.  (* a [while] loop did not finish within its fuel *)

Arguments Normal {A} a.
Arguments Throw {A} e.
Arguments OutOfFuel {A}.

(** A method body over an object of type [S]: it returns a completion and
    the object as the body left it (a throw keeps the writes made so far). *)
Definition M (S A : Type) : Type := S -> completion A * S.

Definition ret {S A} (a : A) : M S A := fun s => (Normal a, s).

Definition bind {S A B} (m : M S A) (k : A -> M S B) : M S B :=
  fun s =>
    match m s with
    | (Normal a, s') => k a s'
    | (Throw e, s') => (Throw e, s')
    | (OutOfFuel, s') => (OutOfFuel, s')
    end.

Definition gets {S A} (f : S -> A) : M S A := fun s => (Normal (f s), s).
Definition modify {S} (f : S -> S) : M S unit := fun s => (Normal tt, f s).
Definition throw {S A} (e : js_error) : M S A := fun s => (Throw e, s).
Definition out_of_fuel {S A} : M S A := fun s => (OutOfFuel, s).

Declare Scope js_scope.
Delimit Scope js_scope with js.
Notation "x <- m ;; k" := (bind m (fun x => k))
  (at level 100, m at next level, right associativity) : js_scope.
Notation "m ;; k" := (bind m (fun _ => k))
  (at level 100, right associativity) : js_scope.
Local Open Scope js_scope.

(** [for (let i = 0; i < n; i++) body], with the local variable the body
    updates as an accumulator. *)
Fixpoint for_each {S A} (idx : list Z) (acc : A) (body : A -> Z -> M S A) : M S A :=
  match idx with
  | [] => ret acc
  | i :: idx' => acc' <- body acc i ;; for_each idx' acc' body
  end.

(** ** JavaScript arrays of [T | undefined] *)

Section JsArray.
Context {T : Type}.

(** [new Array(n)]: [n] empty slots, each read as [undefined]. *)
Definition new_Array (n : Z) : list (option T) := replicate (Z.to_nat n) None.

(** [a[i]]: [undefined] outside the array. *)
Definition arr_get (a : list (option T)) (i : Z) : option T :=
  if i <? 0 then None else default None (a !! Z.to_nat i).

(** [a[i] = v]: a write past the end extends the array with empty slots;
    a negative index is not an element index and leaves the elements
    alone. *)
Definition arr_set (a : list (option T)) (i : Z) (v : option T) : list (option T) :=
  if i <? 0 then a
  else
    let n := Z.to_nat i in
    if (n <? length a)%nat then <[n := v]> a
    else a ++ replicate (n - length a)%nat None ++ [v].
End JsArray.

(** ** class CircularDeque<T> *)

Module CircularDeque.

Record t (T : Type) : Type := mk {
  buffer : list (option T);
  head : Z;
  tail : Z;
  _size : Z;
  capacity : Z
}.
Arguments mk {T}.
Arguments buffer {T}.
Arguments head {T}.
Arguments tail {T}.
Arguments _size {T}.
Arguments capacity {T}.

Section Methods.
Context {T : Type}.

Definition set_buffer (b : list (option T)) (d : t T) : t T :=
  mk b (head d) (tail d) (_size d) (capacity d).
Definition set_head (h : Z) (d : t T) : t T :=
  mk (buffer d) h (tail d) (_size d) (capacity d).
Definition set_tail (tl : Z) (d : t T) : t T :=
  mk (buffer d) (head d) tl (_size d) (capacity d).
Definition set_size (n : Z) (d : t T) : t T :=
  mk (buffer d) (head d) (tail d) n (capacity d).
Definition set_capacity (c : Z) (d : t T) : t T :=
  mk (buffer d) (head d) (tail d) (_size d) c.

(** [constructor(capacity)]: the field initialisers run first. *)
Definition constructor (capacity0 : Z) : t T :=
  let cap := Z.max 1 capacity0 in
  mk (new_Array cap) 0 0 0 cap.

(** [private _grow()] *)
Definition _grow : M (t T) unit :=
  newCapacity <- gets (fun d => capacity d * 2) ;;
  sz <- gets _size ;;
  newBuffer <- for_each (seqZ 0 sz) (new_Array newCapacity)
    (fun newBuffer i =>
       index <- gets (fun d => Z.rem (head d + i) (capacity d)) ;;
       v <- gets (fun d => arr_get (buffer d) index) ;;
       ret (arr_set newBuffer i v)) ;;
  modify (set_buffer newBuffer) ;;
  modify (set_head 0) ;;
  modify (fun d => set_tail (_size d) d) ;;
  modify (set_capacity newCapacity).

(** [push(value)] *)
Definition push (value : T) : M (t T) unit :=
  full <- gets (fun d => _size d =? capacity d) ;;
  (if full : bool then _grow else ret tt) ;;
  modify (fun d => set_buffer (arr_set (buffer d) (tail d) (Some value)) d) ;;
  modify (fun d => set_tail (Z.rem (tail d + 1) (capacity d)) d) ;;
  modify (fun d => set_size (_size d + 1) d).

(** [shift()] *)
Definition shift : M (t T) (option T) :=
  empty <- gets (fun d => _size d =? 0) ;;
  if empty : bool then ret None
  else
    value <- gets (fun d => arr_get (buffer d) (head d)) ;;
    modify (fun d => set_buffer (arr_set (buffer d) (head d) None) d) ;;
    modify (fun d => set_head (Z.rem (head d + 1) (capacity d)) d) ;;
    modify (fun d => set_size (_size d - 1) d) ;;
    ret value.

(** [peekFirst()] *)
Definition peekFirst : M (t T) (option T) :=
  empty <- gets (fun d => _size d =? 0) ;;
  if empty : bool then ret None
  else gets (fun d => arr_get (buffer d) (head d)).

(** [peekLast()] *)
Definition peekLast : M (t T) (option T) :=
  empty <- gets (fun d => _size d =? 0) ;;
  if empty : bool then ret None
  else
    lastIndex <- gets (fun d => Z.rem (tail d - 1 + capacity d) (capacity d)) ;;
    gets (fun d => arr_get (buffer d) lastIndex).

(** [size()] *)
Definition size : M (t T) Z := gets _size.

(** [toArray()]: the non-null assertion [!] is erased at run time, so a
    slot that holds [undefined] is copied as it is. *)
Definition toArray : M (t T) (list (option T)) :=
  sz <- gets _size ;;
  for_each (seqZ 0 sz) []
    (fun result i =>
       index <- gets (fun d => Z.rem (head d + i) (capacity d)) ;;
       v <- gets (fun d => arr_get (buffer d) index) ;;
       ret (result ++ [v])).
End Methods.

End CircularDeque.

(** ** interface PriceData *)

Record PriceData : Type := mkPriceData {
  price : float;
  timestamp : float
}.

(** The double that holds the integer [n], for [0 <= n < 2^53]: a counter
    used as an operand of float arithmetic ([this.sum / size]), or an
    integer price. *)
Definition number_of_Z (n : Z) : float := PrimFloat.of_uint63 (Uint63.of_Z n).

(** [a.map(f)] where [f] may throw. *)
Fixpoint arr_map {S A B} (f : A -> M S B) (a : list A) : M S (list B) :=
  match a with
  | [] => ret []
  | x :: a' => y <- f x ;; ys <- arr_map f a' ;; ret (y :: ys)
  end.

(** [entry.price], a [TypeError] when [entry] is [undefined]. *)
Definition get_price {S} (entry : option PriceData) : M S float :=
  match entry with
  | Some e => ret (price e)
  | None => throw TypeError
  end.

(** ** class TimeWindowDeque, circular-buffer version (Time-Window-Deque.ts) *)

Module TimeWindowDeque.

Record t : Type := mk {
  data : CircularDeque.t PriceData;
  sum : float;
  expiredData : list PriceData;
  capacity : Z
}.

Definition set_data (d : CircularDeque.t PriceData) (s : t) : t :=
  mk d (sum s) (expiredData s) (capacity s).
Definition set_sum (x : float) (s : t) : t :=
  mk (data s) x (expiredData s) (capacity s).
Definition set_expiredData (e : list PriceData) (s : t) : t :=
  mk (data s) (sum s) e (capacity s).

(** A method call on the field [this.data]. *)
Definition on_data {A} (m : M (CircularDeque.t PriceData) A) : M t A :=
  fun s => let (r, d') := m (data s) in (r, set_data d' s).

(** [constructor(initialCapacity = 32)] *)
Definition constructor (initialCapacity : Z) : t :=
  let cap := Z.max 1 initialCapacity in
  mk (CircularDeque.constructor cap) 0%float [] cap.

Definition default_initialCapacity : Z := 32.

(** [push(price, timestamp)] *)
Definition push (price timestamp : float) : M t unit :=
  on_data (CircularDeque.push (mkPriceData price timestamp)) ;;
  modify (fun s => set_sum (sum s + price)%float s).

(** The [while] loop of [expire]; each iteration that goes on removes one
    element, so [fuel] bounds the number of times the condition is read. *)
Fixpoint expire_loop (fuel : nat) (cutoff : float) : M t unit :=
  match fuel with
  | O => out_of_fuel
  | S fuel' =>
      sz <- on_data CircularDeque.size ;;
      if 0 <? sz then
        first <- on_data CircularDeque.peekFirst ;;
        match first with
        | None => ret tt                                    (* !first: break *)
        | Some f =>
            if (cutoff <=? timestamp f)%float then ret tt   (* >= cutoff: break *)
            else
              removed <- on_data CircularDeque.shift ;;
              match removed with
              | None => throw TypeError                     (* removed.price *)
              | Some r =>
                  modify (fun s => set_sum (sum s - price r)%float s) ;;
                  modify (fun s => set_expiredData (expiredData s ++ [r]) s) ;;
                  expire_loop fuel' cutoff
              end
        end
      else ret tt
  end.

(** [expire(cutoff)] *)
Definition expire (cutoff : float) : M t unit :=
  fun s => expire_loop (S (Z.to_nat (CircularDeque._size (data s)))) cutoff s.

(** [size()] *)
Definition size : M t Z := on_data CircularDeque.size.

(** [getSum()] *)
Definition getSum : M t float := gets sum.

(** [getLatestPrice()]; [null] is [None]. *)
Definition getLatestPrice : M t (option float) :=
  last <- on_data CircularDeque.peekLast ;;
  ret (match last with Some l => Some (price l) | None => None end).

(** [getAverage()] *)
Definition getAverage : M t (option float) :=
  size <- size ;;
  if 0 <? size then s <- gets sum ;; ret (Some (s / number_of_Z size)%float)
  else ret None.

(** [getHistory()] *)
Definition getHistory : M t (list (option PriceData)) :=
  on_data CircularDeque.toArray.

(** [getValues()] *)
Definition getValues : M t (list float) :=
  arr <- on_data CircularDeque.toArray ;;
  arr_map get_price arr.

(** [getExpiredValues()] *)
Definition getExpiredValues : M t (list PriceData) := gets expiredData.

End TimeWindowDeque.

(** ** class TimeWindowDeque, array version (TimeWindowDeque-array-impl.ts) *)

Module ArrayImpl.

Record t : Type := mk {
  data : list PriceData;
  sum : float;
  expiredData : list PriceData
}.

Definition set_data (d : list PriceData) (s : t) : t := mk d (sum s) (expiredData s).
Definition set_sum (x : float) (s : t) : t := mk (data s) x (expiredData s).
Definition set_expiredData (e : list PriceData) (s : t) : t := mk (data s) (sum s) e.

(** The class has no constructor: only the field initialisers. *)
Definition constructor : t := mk [] 0%float [].

(** [push(price, timestamp)] *)
Definition push (price timestamp : float) : M t unit :=
  let newData := mkPriceData price timestamp in
  modify (fun s => set_data (data s ++ [newData]) s) ;;
  modify (fun s => set_sum (sum s + price)%float s).

(** [this.data.shift()] *)
Definition data_shift : M t (option PriceData) :=
  d <- gets data ;;
  match d with
  | [] => ret None
  | x :: d' => modify (set_data d') ;; ret (Some x)
  end.

(** The [while] loop of [expire]. *)
Fixpoint expire_loop (fuel : nat) (cutoff : float) : M t unit :=
  match fuel with
  | O => out_of_fuel
  | S fuel' =>
      len <- gets (fun s => Z.of_nat (length (data s))) ;;
      if 0 <? len then
        first <- gets (fun s => data s !! 0%nat) ;;
        match first with
        | None => throw TypeError                     (* this.data[0].timestamp *)
        | Some f =>
            if (timestamp f <? cutoff)%float then
              removed <- data_shift ;;
              match removed with
              | None => throw TypeError               (* removed.price *)
              | Some r =>
                  modify (fun s => set_sum (sum s - price r)%float s) ;;
                  modify (fun s => set_expiredData (expiredData s ++ [r]) s) ;;
                  expire_loop fuel' cutoff
              end
            else ret tt
        end
      else ret tt
  end.

(** [expire(cutoff)] *)
Definition expire (cutoff : float) : M t unit :=
  fun s => expire_loop (S (length (data s))) cutoff s.

(** [size()] *)
Definition size : M t Z := gets (fun s => Z.of_nat (length (data s))).

(** [getSum()] *)
Definition getSum : M t float := gets sum.

(** [getLatestPrice()] *)
Definition getLatestPrice : M t (option float) :=
  len <- gets (fun s => Z.of_nat (length (data s))) ;;
  if 0 <? len then
    last <- gets (fun s => data s !! Z.to_nat (len - 1)) ;;
    match last with
    | Some l => ret (Some (price l))
    | None => throw TypeError
    end
  else ret None.

(** [getAverage()] *)
Definition getAverage : M t (option float) :=
  sz <- size ;;
  if 0 <? sz then
    s <- gets sum ;; sz' <- size ;; ret (Some (s / number_of_Z sz')%float)
  else ret None.

(** [getHistory()] *)
Definition getHistory : M t (list PriceData) := gets data.

(** [getValues()] *)
Definition getValues : M t (list float) :=
  gets (fun s => map (fun entry => price entry) (data s)).

(** [getExpiredValues()] *)
Definition getExpiredValues : M t (list PriceData) := gets expiredData.

End ArrayImpl.

(** ** Sequences of calls *)

Inductive op : Type :=
  | Push (price timestamp : float)
  | Expire (cutoff : float).

Definition step (o : op) : M TimeWindowDeque.t unit :=
  match o with
  | Push p ts => TimeWindowDeque.push p ts
  | Expire c => TimeWindowDeque.expire c
  end.

Fixpoint run (ops : list op) : M TimeWindowDeque.t unit :=
  match ops with
  | [] => ret tt
  | o :: ops' => step o ;; run ops'
  end.

Definition array_step (o : op) : M ArrayImpl.t unit :=
  match o with
  | Push p ts => ArrayImpl.push p ts
  | Expire c => ArrayImpl.expire c
  end.

Fixpoint array_run (ops : list op) : M ArrayImpl.t unit :=
  match ops with
  | [] => ret tt
  | o :: ops' => array_step o ;; array_run ops'
  end.

(** The buffer after the calls [ops] on [new TimeWindowDeque(cap)]. *)
Definition after (cap : Z) (ops : list op) : TimeWindowDeque.t :=
  snd (run ops (TimeWindowDeque.constructor cap)).

Definition array_after (ops : list op) : ArrayImpl.t :=
  snd (array_run ops ArrayImpl.constructor).

(** ** Representation invariant of the circular buffer *)

Module CircularRep.
Import CircularDeque.

Section Rep.
Context {T : Type}.

(** The slots [toArray] reads, oldest first. *)
Definition elems (d : t T) : list (option T) :=
  map (fun i => arr_get (buffer d) (Z.rem (head d + i) (capacity d))) (seqZ 0 (_size d)).

(** The geometry of the ring: [tail] is [_size] slots after [head]. *)
Record wf (d : t T) : Prop := mk_wf {
  wf_capacity : 1 <= capacity d;
  wf_length : Z.of_nat (length (buffer d)) = capacity d;
  wf_head : 0 <= head d < capacity d;
  wf_size : 0 <= _size d <= capacity d;
  wf_tail : tail d = Z.rem (head d + _size d) (capacity d)
}.

(** [d] holds exactly the elements [l], oldest first. *)
Definition repr (d : t T) (l : list T) : Prop :=
  wf d /\ elems d = map Some l.

(** The ring after [_grow()], when it was full. *)
Definition grown (d : t T) : t T :=
  mk (elems d ++ replicate (Z.to_nat (capacity d)) None) 0 (_size d) (_size d) (capacity d * 2).

(** The ring after the three writes that end [push(v)]. *)
Definition push_slot (v : T) (d : t T) : t T :=
  mk (arr_set (buffer d) (tail d) (Some v)) (head d)
     (Z.rem (tail d + 1) (capacity d)) (_size d + 1) (capacity d).

(** The ring after the three writes of [shift()] on a non-empty ring. *)
Definition shifted (d : t T) : t T :=
  mk (arr_set (buffer d) (head d) None) (Z.rem (head d + 1) (capacity d)) (tail d)
     (_size d - 1) (capacity d).

End Rep.
End CircularRep.

(** ** Live samples and the eviction rule *)

(** The live samples, oldest first: the defined entries [getHistory] lists. *)
Definition live (s : TimeWindowDeque.t) : list PriceData :=
  omap id (CircularRep.elems (TimeWindowDeque.data s)).

(** The circular buffer of [s] is well formed and holds no [undefined]
    among its live slots. *)
Definition inv (s : TimeWindowDeque.t) : Prop :=
  CircularRep.repr (TimeWindowDeque.data s) (live s).

Fixpoint take_while {A} (f : A -> bool) (l : list A) : list A :=
  match l with
  | [] => []
  | x :: l' => if f x then x :: take_while f l' else []
  end.

Fixpoint drop_while {A} (f : A -> bool) (l : list A) : list A :=
  match l with
  | [] => []
  | x :: l' => if f x then drop_while f l' else l
  end.

(** The test that keeps the circular version's loop going: not
    [first.timestamp >= cutoff]. *)
Definition stale (cutoff : float) (p : PriceData) : bool :=
  negb (cutoff <=? timestamp p)%float.

(** The test that keeps the array version's loop going:
    [this.data[0].timestamp < cutoff]. *)
Definition array_stale (cutoff : float) (p : PriceData) : bool :=
  (timestamp p <? cutoff)%float.

(** [sum] after subtracting the prices of [l], in order. *)
Definition sub_prices (x : float) (l : list PriceData) : float :=
  fold_left (fun acc r => (acc - price r)%float) l x.

(** The sum of the prices of [l] by a full scan, oldest first. *)
Definition scan_sum (l : list PriceData) : float :=
  fold_left (fun acc r => (acc + price r)%float) l 0%float.

(** ** What a caller can observe *)

Definition completion_map {A B} (f : A -> B) (c : completion A) : completion B :=
  match c with
  | Normal a => Normal (f a)
  | Throw e => Throw e
  | OutOfFuel => OutOfFuel
  end.

(** The results of the seven queries. *)
Record observation : Type := mk_observation {
  obs_size : completion Z;
  obs_sum : completion float;
  obs_latest : completion (option float);
  obs_average : completion (option float);
  obs_history : completion (list (option PriceData));
  obs_values : completion (list float);
  obs_expired : completion (list PriceData)
}.

Definition observe (s : TimeWindowDeque.t) : observation :=
  mk_observation
    (fst (TimeWindowDeque.size s))
    (fst (TimeWindowDeque.getSum s))
    (fst (TimeWindowDeque.getLatestPrice s))
    (fst (TimeWindowDeque.getAverage s))
    (fst (TimeWindowDeque.getHistory s))
    (fst (TimeWindowDeque.getValues s))
    (fst (TimeWindowDeque.getExpiredValues s)).

(** The array version's [getHistory] returns an array without holes. *)
Definition array_observe (a : ArrayImpl.t) : observation :=
  mk_observation
    (fst (ArrayImpl.size a))
    (fst (ArrayImpl.getSum a))
    (fst (ArrayImpl.getLatestPrice a))
    (fst (ArrayImpl.getAverage a))
    (completion_map (map Some) (fst (ArrayImpl.getHistory a)))
    (fst (ArrayImpl.getValues a))
    (fst (ArrayImpl.getExpiredValues a)).

(** No timestamp and no cutoff of [ops] is NaN. *)
Definition no_nan_times (ops : list op) : bool :=
  forallb (fun o => match o with
                    | Push _ ts => negb (is_nan ts)
                    | Expire c => negb (is_nan c)
                    end) ops.

(** The query methods, and the result of each. *)
Inductive query : Type :=
  | Qsize | QgetSum | QgetLatestPrice | QgetAverage
  | QgetHistory | QgetValues | QgetExpiredValues.

Inductive query_result : Type :=
  | Rnumber (n : Z)
  | Rfloat (x : float)
  | Rnullable (x : option float)
  | Rhistory (h : list (option PriceData))
  | Rvalues (v : list float)
  | Rsamples (e : list PriceData).

Definition run_query (q : query) : M TimeWindowDeque.t query_result :=
  match q with
  | Qsize => n <- TimeWindowDeque.size ;; ret (Rnumber n)
  | QgetSum => x <- TimeWindowDeque.getSum ;; ret (Rfloat x)
  | QgetLatestPrice => x <- TimeWindowDeque.getLatestPrice ;; ret (Rnullable x)
  | QgetAverage => x <- TimeWindowDeque.getAverage ;; ret (Rnullable x)
  | QgetHistory => h <- TimeWindowDeque.getHistory ;; ret (Rhistory h)
  | QgetValues => v <- TimeWindowDeque.getValues ;; ret (Rvalues v)
  | QgetExpiredValues => e <- TimeWindowDeque.getExpiredValues ;; ret (Rsamples e)
  end.

(** The buffer after one iteration of [expire]'s loop that evicts [r]. *)
Definition evict_first (r : PriceData) (s : TimeWindowDeque.t) : TimeWindowDeque.t :=
  TimeWindowDeque.mk (CircularRep.shifted (TimeWindowDeque.data s))
    (TimeWindowDeque.sum s - price r)%float
    (TimeWindowDeque.expiredData s ++ [r])
    (TimeWindowDeque.capacity s).

(** The loop of [expire(c)] stops at once on [s]: the ring is empty, or its
    first slot is [undefined], or the first sample is not older than [c]. *)
Definition at_rest (c : float) (s : TimeWindowDeque.t) : Prop :=
  CircularDeque._size (TimeWindowDeque.data s) <= 0
  \/ match arr_get (CircularDeque.buffer (TimeWindowDeque.data s))
                   (CircularDeque.head (TimeWindowDeque.data s)) with
     | None => True
     | Some f => (c <=? timestamp f)%float = true
     end.

(** ** The properties of the specification *)

(** The sum invariant: [getSum()] is the sum of the live values. *)
Definition sum_invariant (s : TimeWindowDeque.t) : Prop :=
  fst (TimeWindowDeque.getSum s) = Normal (scan_sum (live s)).

Definition not_nan_time (p : PriceData) : Prop := is_nan (timestamp p) = false.

(** Non-decreasing timestamps: [a.timestamp <= b.timestamp]. *)
Definition le_time (a b : PriceData) : Prop := (timestamp a <=? timestamp b)%float = true.

(** What [expire(cutoff)] promises on [s]: the samples it evicts are a
    prefix of the live ones, all older than [cutoff]; they are appended to
    the expired history in that order; no sample left is older than
    [cutoff]. *)
Definition expire_postcondition (s : TimeWindowDeque.t) (cutoff : float) : Prop :=
  let s' := snd (TimeWindowDeque.expire cutoff s) in
  exists evicted : list PriceData,
    live s = evicted ++ live s'
    /\ TimeWindowDeque.expiredData s' = TimeWindowDeque.expiredData s ++ evicted
    /\ Forall (fun p => (cutoff <=? timestamp p)%float = true) (live s')
    /\ Forall (fun p => (timestamp p <? cutoff)%float = true) evicted.

(** The two versions agree on [s] and [a]: same live samples, same sum,
    same expired history, and no live timestamp is NaN. *)
Definition sim (s : TimeWindowDeque.t) (a : ArrayImpl.t) : Prop :=
  inv s
  /\ live s = ArrayImpl.data a
  /\ TimeWindowDeque.sum s = ArrayImpl.sum a
  /\ TimeWindowDeque.expiredData s = ArrayImpl.expiredData a
  /\ Forall not_nan_time (live s).

(** [push(v, t)] for each [(v, t)] of [samples], in order. *)
Definition pushes (samples : list (float * float)) : list op :=
  map (fun x => Push (fst x) (snd x)) samples.

(** [push(v, t)] rejects its input on [s]: it throws. *)
Definition rejects (v t : float) (s : TimeWindowDeque.t) : Prop :=
  exists e, fst (TimeWindowDeque.push v t s) = Throw e.

(** NaN, [Infinity] or [-Infinity]. *)
Definition non_finite (x : float) : Prop := is_finite x = false.

(** A buffer that holds no sample, live or expired, has sum 0. *)
Definition pristine_sum (s : TimeWindowDeque.t) : Prop :=
  live s = [] -> TimeWindowDeque.expiredData s = [] -> TimeWindowDeque.sum s = 0%float.

(** ** Integer prices *)

(** Calls whose prices are integers (an amount in cents, say); a double
    holds such an amount exactly. *)
Inductive int_op : Type :=
  | IPush (amount : Z) (timestamp : float)
  | IExpire (cutoff : float).

Definition to_op (o : int_op) : op :=
  match o with
  | IPush z ts => Push (number_of_Z z) ts
  | IExpire c => Expire c
  end.

Definition amount_of (o : int_op) : Z :=
  match o with
  | IPush z _ => z
  | IExpire _ => 0
  end.

Fixpoint total_pushed (ops : list int_op) : Z :=
  match ops with
  | [] => 0
  | o :: ops' => amount_of o + total_pushed ops'
  end.

(** No amount is negative and all of them together stay below 2^53, so no
    addition and no subtraction of the run rounds. *)
Definition exact_range (ops : list int_op) : bool :=
  forallb (fun o => 0 <=? amount_of o) ops && (total_pushed ops <? 2 ^ 53).

Definition int_sample (x : Z * float) : PriceData :=
  mkPriceData (number_of_Z (fst x)) (snd x).

Fixpoint total (l : list (Z * float)) : Z :=
  match l with
  | [] => 0
  | x :: l' => fst x + total l'
  end.

(** The buffer holds the integer samples [l], and its sum is their total. *)
Definition holds_exactly (s : TimeWindowDeque.t) (l : list (Z * float)) : Prop :=
  inv s
  /\ live s = map int_sample l
  /\ Forall (fun x => 0 <= fst x) l
  /\ TimeWindowDeque.sum s = number_of_Z (total l).

(** ** binary64 as the standard library specifies it *)

(** A key that orders the doubles other than NaN as [<=] does: class
    (-inf, negative, zero, positive, +inf), then exponent, then mantissa. *)
Definition sf_key (x : spec_float) : Z * Z * Z :=
  match x with
  | S754_zero _ => (0, 0, 0)
  | S754_infinity true => (-2, 0, 0)
  | S754_infinity false => (2, 0, 0)
  | S754_nan => (0, 0, 0)
  | S754_finite true m e => (-1, - e, - Z.pos m)
  | S754_finite false m e => (1, e, Z.pos m)
  end.

Definition key_le (a b : Z * Z * Z) : Prop :=
  let '(a1, a2, a3) := a in
  let '(b1, b2, b3) := b in
  a1 < b1 \/ (a1 = b1 /\ (a2 < b2 \/ (a2 = b2 /\ a3 <= b3))).

Definition key_lt (a b : Z * Z * Z) : Prop :=
  let '(a1, a2, a3) := a in
  let '(b1, b2, b3) := b in
  a1 < b1 \/ (a1 = b1 /\ (a2 < b2 \/ (a2 = b2 /\ a3 < b3))).

(** The binary64 representation of the integer [N], [0 < N < 2^53]: the
    mantissa shifted to 53 bits. *)
Definition canon (N : positive) : spec_float :=
  let d := Z.pos (digits2_pos N) in
  S754_finite false (Pos.shiftl_nat N (Z.to_nat (53 - d))) (d - 53).

(** The shift that normalises the mantissa of [N]. *)
Definition lead (N : positive) : nat := Z.to_nat (53 - Z.pos (digits2_pos N)).

(** * The rest of the code *)

(** Calls on a [CircularDeque<T>]. *)
Inductive deque_op (T : Type) : Type :=
  | DPush (value : T)
  | DShift.
Arguments DPush {T} value.
Arguments DShift {T}.

(** The calls [ops] in order; the result lists what each [shift()] returned. *)
Fixpoint deque_run {T} (ops : list (deque_op T)) : M (CircularDeque.t T) (list (option T)) :=
  match ops with
  | [] => ret []
  | DPush v :: ops' => CircularDeque.push v ;; deque_run ops'
  | DShift :: ops' =>
      r <- CircularDeque.shift ;; rs <- deque_run ops' ;; ret (r :: rs)
  end.

(** The same calls on a plain list used as a first-in first-out queue. *)
Fixpoint queue_run {T} (ops : list (deque_op T)) (q : list T) : list (option T) * list T :=
  match ops with
  | [] => ([], q)
  | DPush v :: ops' => queue_run ops' (q ++ [v])
  | DShift :: ops' =>
      (hd_error q :: fst (queue_run ops' (tl q)), snd (queue_run ops' (tl q)))
  end.

(** The deque after the calls [ops] on [new CircularDeque(cap)]. *)
Definition deque_after {T} (cap : Z) (ops : list (deque_op T)) : CircularDeque.t T :=
  snd (deque_run ops (CircularDeque.constructor cap)).

(** Slot [j] of the ring is one of the [_size] slots from [head] on. *)
Definition live_slot {T} (d : CircularDeque.t T) (j : Z) : Prop :=
  exists i, 0 <= i < CircularDeque._size d
            /\ j = Z.rem (CircularDeque.head d + i) (CircularDeque.capacity d).

(** Every slot that is not live holds [undefined]. *)
Definition vacated {T} (d : CircularDeque.t T) : Prop :=
  forall j, ~ live_slot d j -> arr_get (CircularDeque.buffer d) j = None.

(** What every reachable ring satisfies, for the initial capacity [c0] and
    the queue content [q]. *)
Definition ring_inv {T} (c0 : Z) (d : CircularDeque.t T) (q : list T) : Prop :=
  CircularRep.repr d q /\ vacated d
  /\ exists k : nat, CircularDeque.capacity d = Z.max 1 c0 * 2 ^ Z.of_nat k.

(** The samples [ops] pushed, in call order. *)
Definition pushed_samples (ops : list op) : list PriceData :=
  omap (fun o => match o with
                 | Push p ts => Some (mkPriceData p ts)
                 | Expire _ => None
                 end) ops.

(** The first live sample, if any, is not older than [cutoff]. *)
Definition head_in_window (cutoff : float) (l : list PriceData) : Prop :=
  match l with
  | [] => True
  | p :: _ => (cutoff <=? timestamp p)%float = true
  end.

(** The ring of [s] satisfies [ring_inv] for the capacity [s] was built with. *)
Definition buffer_inv (s : TimeWindowDeque.t) : Prop :=
  ring_inv (TimeWindowDeque.capacity s) (TimeWindowDeque.data s) (live s).

(** The first remaining sample of the array version, if any, is not older
    than [cutoff]: [timestamp < cutoff] is false. *)
Definition array_head_in_window (cutoff : float) (l : list PriceData) : Prop :=
  match l with
  | [] => True
  | p :: _ => (timestamp p <? cutoff)%float = false
  end.

(** The array version holds the integer samples [l], and its sum is their total. *)
Definition array_holds_exactly (a : ArrayImpl.t) (l : list (Z * float)) : Prop :=
  ArrayImpl.data a = map int_sample l
  /\ Forall (fun x => 0 <= fst x) l
  /\ ArrayImpl.sum a = number_of_Z (total l).

(** ['up' | 'down' | 'neutral'] *)
Inductive trend : Type := up | down | neutral.

(** [dequeRef.current] and the [trend] state of one ticker. *)
Record ticker : Type := mk_ticker {
  deque : TimeWindowDeque.t;
  trend_state : trend
}.

Definition set_deque (d : TimeWindowDeque.t) (t : ticker) : ticker :=
  mk_ticker d (trend_state t).
Definition setTrend (x : trend) (t : ticker) : ticker :=
  mk_ticker (deque t) x.

(** A method call on [dequeRef.current]. *)
Definition on_deque {A} (m : M TimeWindowDeque.t A) : M ticker A :=
  fun t => let (r, d') := m (deque t) in (r, set_deque d' t).

(** [useRef(new TimeWindowDeque())] and [useState('neutral')]. *)
Definition new_ticker : ticker :=
  mk_ticker (TimeWindowDeque.constructor TimeWindowDeque.default_initialCapacity) neutral.

(** [updateMetrics(newPrice)]; [now] is what [Date.now()] returned. *)
Definition updateMetrics (newPrice now : float) : M ticker unit :=
  let cutoff := (now - 30000)%float in
  prevPrice <- on_deque TimeWindowDeque.getLatestPrice ;;
  match prevPrice with
  | Some prev =>
      modify (setTrend (if (prev <? newPrice)%float then up
                        else if (newPrice <? prev)%float then down
                        else neutral))
  | None => ret tt
  end ;;
  on_deque (TimeWindowDeque.push newPrice now) ;;
  on_deque (TimeWindowDeque.expire cutoff).

(** One tick of the feed: a price, and the clock in milliseconds. *)
Abbreviation tick := (float * Z)%type (only parsing).

Fixpoint run_ticks (ticks : list tick) : M ticker unit :=
  match ticks with
  | [] => ret tt
  | (p, n) :: ticks' => updateMetrics p (number_of_Z n) ;; run_ticks ticks'
  end.

(** The ticker after the ticks [ticks] on a new component. *)
Definition ticker_after (ticks : list tick) : ticker := snd (run_ticks ticks new_ticker).

(** A clock value [Date.now()] can return here: at least 30 s after the
    epoch and below 2^53. *)
Definition clock_ok (n : Z) : Prop := 30000 <= n < 2 ^ 53.

Definition tick_sample (tk : tick) : PriceData := mkPriceData (fst tk) (number_of_Z (snd tk)).

(** The sign of the last price move. *)
Definition move (prev new : float) : trend :=
  if (prev <? new)%float then up else if (new <? prev)%float then down else neutral.

(** the samples a 30-second window ending at the last tick holds *)
Definition window (ticks : list tick) : list tick :=
  match last ticks with
  | Some tk => List.filter (fun x => snd tk - 30000 <=? snd x) ticks
  | None => []
  end.

(** Ticks arrive in clock order. *)
Definition le_clock (a b : tick) : Prop := snd a <= snd b.

(** The minimal delay between two ticks of the simulated feed. *)
Definition spaced (a b : tick) : Prop := snd a + 1000 <= snd b.

(** [this.data.capacity]: the number of slots of the ring. *)
Definition ring_capacity (s : TimeWindowDeque.t) : Z :=
  CircularDeque.capacity (TimeWindowDeque.data s).

Module TradingPlatform.

(** [interface StockSymbol]; the optional fields are never set. *)
Record StockSymbol : Type := mkStockSymbol {
  symbol : string;
  name : string
}.

(** The initial (and only) value of the [watchlist] state. *)
Definition watchlist : list StockSymbol :=
  [ mkStockSymbol "AAPL" "Apple Inc.";
    mkStockSymbol "MSFT" "Microsoft Corporation";
    mkStockSymbol "GOOGL" "Alphabet Inc.";
    mkStockSymbol "AMZN" "Amazon.com Inc.";
    mkStockSymbol "TSLA" "Tesla Inc.";
    mkStockSymbol "NVDA" "NVIDIA Corporation";
    mkStockSymbol "META" "Meta Platforms Inc.";
    mkStockSymbol "JPM" "JPMorgan Chase & Co." ].

(** [useState<string>('AAPL')] *)
Definition initial_selectedSymbol : string := "AAPL".

(** The props both [WatchlistItem] and [PriceTicker] receive: [key],
    [active], and what [onClick] passes to [setSelectedSymbol]. *)
Record item : Type := mk_item {
  key : string;
  active : bool;
  onClick : string
}.

(** The body of each [watchlist.map(stock => ...)]. *)
Definition render_item (selectedSymbol : string) (stock : StockSymbol) : item :=
  mk_item (symbol stock) (String.eqb selectedSymbol (symbol stock)) (symbol stock).

(** The items of [<Sidebar>] and of [<TickerGrid>]. *)
Definition sidebar (selectedSymbol : string) : list item :=
  map (render_item selectedSymbol) watchlist.
Definition tickerGrid (selectedSymbol : string) : list item :=
  map (render_item selectedSymbol) watchlist.

(** A click on the [i]-th sidebar item or on the [i]-th ticker card. *)
Inductive event : Type := ClickItem (i : nat) | ClickTicker (i : nat).

(** The state after the handler of the clicked element ran; a click that
    hits no element changes nothing. *)
Definition handle (selectedSymbol : string) (e : event) : string :=
  match e with
  | ClickItem i =>
      match sidebar selectedSymbol !! i with
      | Some it => onClick it
      | None => selectedSymbol
      end
  | ClickTicker i =>
      match tickerGrid selectedSymbol !! i with
      | Some it => onClick it
      | None => selectedSymbol
      end
  end.

Definition selected_after (events : list event) : string :=
  fold_left handle events initial_selectedSymbol.

End TradingPlatform.

(** * Proofs *)

(** ** The repository's tests, replayed on the model *)

Example circular_wraps :
  fst ((CircularDeque.push 1%nat ;; CircularDeque.push 2%nat ;;
        CircularDeque.shift ;; CircularDeque.push 3%nat ;;
        CircularDeque.toArray) (CircularDeque.constructor 2))
  = Normal [Some 2%nat; Some 3%nat].
Proof. reflexivity. Qed.

(** The tests of Time-Window-Deque.test.ts that the properties below rest on. *)
Example test_expire_old_items :
  let ops := [Push 100 0; Push 101 30000; Push 102 60000; Expire 30000] in
  fst (TimeWindowDeque.size (after 4 ops)) = Normal 2
  /\ fst (TimeWindowDeque.getValues (after 4 ops)) = Normal [101; 102]%float
  /\ fst (TimeWindowDeque.getSum (after 4 ops)) = Normal 203%float
  /\ fst (TimeWindowDeque.getExpiredValues (after 4 ops)) = Normal [mkPriceData 100 0].
Proof. vm_compute. repeat split. Qed.

Example test_average :
  fst (TimeWindowDeque.getAverage (after 4 [Push 100 0; Push 200 1000; Push 300 2000]))
  = Normal (Some 200%float).
Proof. vm_compute. reflexivity. Qed.

(** ** Order of binary64 values *)

Ltac sf_cases :=
  repeat match goal with
  | s : bool |- _ => destruct s
  end; cbn;
  repeat match goal with
  | |- context [Z.compare ?a ?b] => destruct (Z.compare_spec a b); cbn
  | |- context [Pos.compare_cont Eq ?a ?b] =>
      change (Pos.compare_cont Eq a b) with (Pos.compare a b);
      destruct (Pos.compare_spec a b); cbn
  end.

Lemma SFleb_key x y :
  x <> S754_nan -> y <> S754_nan -> (SFleb x y = true <-> key_le (sf_key x) (sf_key y)).
Proof.
  intros Hx Hy. unfold SFleb, SFcompare, key_le, sf_key.
  destruct x as [s1|s1| |s1 m1 e1], y as [s2|s2| |s2 m2 e2]; try congruence;
    sf_cases; split; intros; try discriminate; try reflexivity; try lia.
Qed.

Lemma SFltb_key x y :
  x <> S754_nan -> y <> S754_nan -> (SFltb x y = true <-> key_lt (sf_key x) (sf_key y)).
Proof.
  intros Hx Hy. unfold SFltb, SFcompare, key_lt, sf_key.
  destruct x as [s1|s1| |s1 m1 e1], y as [s2|s2| |s2 m2 e2]; try congruence;
    sf_cases; split; intros; try discriminate; try reflexivity; try lia.
Qed.

Lemma SFleb_nan_l x y : SFleb x y = true -> x <> S754_nan /\ y <> S754_nan.
Proof. unfold SFleb, SFcompare. destruct x, y; try discriminate; split; discriminate. Qed.

Lemma is_nan_Prim2SF x : is_nan x = false <-> Prim2SF x <> S754_nan.
Proof.
  unfold is_nan. rewrite (FloatAxioms.eqb_spec x x). unfold SFeqb.
  destruct (Prim2SF x) as [s|s| |s m e] eqn:E; cbn.
  - split; [discriminate|reflexivity].
  - destruct s; split; (discriminate || reflexivity).
  - split; [discriminate|congruence].
  - split; [discriminate|intros _].
    destruct s; cbn; rewrite Z.compare_refl;
    change (Pos.compare_cont Eq m m) with (Pos.compare m m); rewrite Pos.compare_refl; reflexivity.
Qed.

Lemma ltb_negb_leb (a b : float) :
  is_nan a = false -> is_nan b = false -> (a <? b)%float = negb (b <=? a)%float.
Proof.
  intros Ha Hb. apply is_nan_Prim2SF in Ha, Hb.
  rewrite ltb_spec, leb_spec.
  pose proof (SFltb_key _ _ Ha Hb) as Hlt. pose proof (SFleb_key _ _ Hb Ha) as Hle.
  destruct (SFltb (Prim2SF a) (Prim2SF b)), (SFleb (Prim2SF b) (Prim2SF a)); cbn; try reflexivity; exfalso.
  - destruct Hlt as [Hlt _], Hle as [Hle _]. specialize (Hlt eq_refl). specialize (Hle eq_refl).
    unfold key_lt, key_le in *. destruct (sf_key (Prim2SF a)) as [[? ?] ?], (sf_key (Prim2SF b)) as [[? ?] ?]. lia.
  - assert (~ key_lt (sf_key (Prim2SF a)) (sf_key (Prim2SF b))) as Hn1 by (intros H; apply Hlt in H; discriminate).
    assert (~ key_le (sf_key (Prim2SF b)) (sf_key (Prim2SF a))) as Hn2 by (intros H; apply Hle in H; discriminate).
    unfold key_lt, key_le in *. destruct (sf_key (Prim2SF a)) as [[? ?] ?], (sf_key (Prim2SF b)) as [[? ?] ?]. lia.
Qed.

Lemma leb_trans (a b c : float) :
  (a <=? b)%float = true -> (b <=? c)%float = true -> (a <=? c)%float = true.
Proof.
  rewrite !leb_spec. intros Hab Hbc.
  destruct (SFleb_nan_l _ _ Hab) as [Ha Hb]. destruct (SFleb_nan_l _ _ Hbc) as [_ Hc].
  apply SFleb_key in Hab, Hbc; try assumption. apply SFleb_key; try assumption.
  unfold key_le in *.
  destruct (sf_key (Prim2SF a)) as [[? ?] ?], (sf_key (Prim2SF b)) as [[? ?] ?], (sf_key (Prim2SF c)) as [[? ?] ?]. lia.
Qed.

Lemma leb_not_nan (a b : float) : (a <=? b)%float = true -> is_nan a = false /\ is_nan b = false.
Proof.
  rewrite leb_spec. intros H. apply SFleb_nan_l in H. rewrite !is_nan_Prim2SF. exact H.
Qed.

(** ** Exact integer arithmetic in binary64 *)

Lemma digits2_pos_bounds (p : positive) :
  2 ^ (Z.pos (digits2_pos p) - 1) <= Z.pos p < 2 ^ Z.pos (digits2_pos p).
Proof.
  induction p as [p IH|p IH|]; cbn [digits2_pos].
  - rewrite Pos2Z.inj_succ. replace (Z.succ (Z.pos (digits2_pos p)) - 1) with (Z.succ (Z.pos (digits2_pos p) - 1)) by lia.
    rewrite !Z.pow_succ_r by lia. lia.
  - rewrite Pos2Z.inj_succ. replace (Z.succ (Z.pos (digits2_pos p)) - 1) with (Z.succ (Z.pos (digits2_pos p) - 1)) by lia.
    rewrite !Z.pow_succ_r by lia. lia.
  - cbn. lia.
Qed.

Lemma digits2_pos_unique (p : positive) (d : Z) :
  2 ^ (d - 1) <= Z.pos p < 2 ^ d -> Z.pos (digits2_pos p) = d.
Proof.
  intros [Hlo Hhi]. pose proof (digits2_pos_bounds p) as [Hlo' Hhi'].
  assert (0 < d).
  { destruct (Z.lt_trichotomy d 0) as [Hd|[Hd|Hd]]; [|subst; cbn in Hhi; lia|lia].
    rewrite Z.pow_neg_r in Hhi by lia. lia. }
  destruct (Z.lt_trichotomy (Z.pos (digits2_pos p)) d) as [Hlt|[Heq|Hgt]]; [|exact Heq|].
  - assert (2 ^ Z.pos (digits2_pos p) <= 2 ^ (d - 1)) by (apply Z.pow_le_mono_r; lia). lia.
  - assert (2 ^ d <= 2 ^ (Z.pos (digits2_pos p) - 1)) by (apply Z.pow_le_mono_r; lia). lia.
Qed.

Lemma shiftl_nat_Z (p : positive) (n : nat) :
  Z.pos (Pos.shiftl_nat p n) = Z.pos p * 2 ^ Z.of_nat n.
Proof.
  induction n as [|n IH]; [cbn; lia|].
  cbn [Pos.shiftl_nat nat_rect]. rewrite Pos2Z.inj_xO.
  rewrite IH, Nat2Z.inj_succ, Z.pow_succ_r by lia. lia.
Qed.

Lemma digits2_pos_shiftl (p : positive) (n : nat) :
  Z.pos (digits2_pos (Pos.shiftl_nat p n)) = Z.pos (digits2_pos p) + Z.of_nat n.
Proof.
  apply digits2_pos_unique. rewrite shiftl_nat_Z.
  pose proof (digits2_pos_bounds p) as [Hlo Hhi].
  replace (Z.pos (digits2_pos p) + Z.of_nat n - 1) with ((Z.pos (digits2_pos p) - 1) + Z.of_nat n) by lia.
  rewrite !Z.pow_add_r by lia.
  assert (0 < 2 ^ Z.of_nat n) by (apply Z.pow_pos_nonneg; lia). nia.
Qed.

Lemma iter_pos_nat {A} (f : A -> A) (p : positive) (x : A) :
  SpecFloat.iter_pos f p x = Nat.iter (Pos.to_nat p) f x.
Proof.
  revert x. induction p as [p IH|p IH|]; intros x; cbn [SpecFloat.iter_pos].
  - rewrite !IH. rewrite Pos2Nat.inj_xI. 
    rewrite <- Nat.iter_add. replace (S (2 * Pos.to_nat p)) with (S (Pos.to_nat p + Pos.to_nat p))%nat by lia.
    rewrite Nat.iter_succ_r. reflexivity.
  - rewrite !IH. rewrite Pos2Nat.inj_xO, <- Nat.iter_add. f_equal. lia.
  - reflexivity.
Qed.

Lemma shr_exact (q : positive) (n : nat) :
  Nat.iter n shr_1 (Build_shr_record (Z.pos (Pos.shiftl_nat q n)) false false)
  = Build_shr_record (Z.pos q) false false.
Proof.
  induction n as [|n IH]; [reflexivity|].
  rewrite Nat.iter_succ_r. cbn [Pos.shiftl_nat nat_rect shr_1 orb]. exact IH.
Qed.

Lemma shiftl_nat_add (p : positive) (a b : nat) :
  Pos.shiftl_nat (Pos.shiftl_nat p a) b = Pos.shiftl_nat p (a + b).
Proof.
  induction b as [|b IH]; [by rewrite Nat.add_0_r|].
  rewrite Nat.add_succ_r. cbn [Pos.shiftl_nat nat_rect]. f_equal. exact IH.
Qed.

Lemma pos_iter_xO (q p : positive) : Pos.iter xO q p = Pos.shiftl_nat q (Pos.to_nat p).
Proof. rewrite Pos2Nat.inj_iter. reflexivity. Qed.

Lemma binary_round_exact (N : positive) (k : nat) :
  Z.pos N < 2 ^ 53 ->
  binary_round prec emax false (Pos.shiftl_nat N k) (- Z.of_nat k) = canon N.
Proof.
  intros HN. pose proof (digits2_pos_bounds N) as [Hlo Hhi].
  assert (Hd : 1 <= Z.pos (digits2_pos N) <= 53).
  { split; [lia|]. destruct (Z.le_gt_cases (Z.pos (digits2_pos N)) 53) as [|Hgt]; [done|].
    assert (2 ^ 53 <= 2 ^ (Z.pos (digits2_pos N) - 1)) by (apply Z.pow_le_mono_r; lia). lia. }
  set (d := Z.pos (digits2_pos N)) in *.
  unfold binary_round. rewrite digits2_pos_shiftl. fold d.
  replace (d + Z.of_nat k + - Z.of_nat k) with d by lia.
  assert (Hfexp : fexp prec emax d = d - 53).
  { unfold fexp, emin, prec, emax. lia. }
  rewrite Hfexp.
  assert (Haux : binary_round_aux prec emax false (Z.pos (Pos.shiftl_nat N (Z.to_nat (53 - d)))) (d - 53) loc_Exact = canon N
                 /\ True).
  { split; [|done]. unfold binary_round_aux, shr_fexp. cbn [Zdigits2 shr_record_of_loc].
    rewrite digits2_pos_shiftl. fold d.
    replace (d + Z.of_nat (Z.to_nat (53 - d)) + (d - 53)) with d by lia.
    rewrite Hfexp, Z.sub_diag. cbn [shr shr_m loc_of_shr_record round_nearest_even Zdigits2 shr_record_of_loc].
    rewrite digits2_pos_shiftl. fold d.
    replace (d + Z.of_nat (Z.to_nat (53 - d)) + (d - 53)) with d by lia.
    rewrite Hfexp, Z.sub_diag. cbn [shr shr_m].
    destruct (Z.leb_spec (d - 53) (emax - prec)) as [_|Hgt]; [reflexivity|].
    unfold emax, prec in Hgt. lia. }
  destruct Haux as [Haux _].
  unfold shl_align.
  destruct (d - 53 - - Z.of_nat k) as [|p|p] eqn:Hsub.
  - (* already aligned *)
    assert (k = Z.to_nat (53 - d)) as -> by lia.
    replace (- Z.of_nat (Z.to_nat (53 - d))) with (d - 53) by lia. exact Haux.
  - (* shift right, exactly *)
    unfold binary_round_aux, shr_fexp. cbn [Zdigits2 shr_record_of_loc].
    rewrite digits2_pos_shiftl. fold d.
    replace (d + Z.of_nat k + - Z.of_nat k) with d by lia.
    rewrite Hfexp, Hsub. cbn [shr].
    rewrite iter_pos_nat.
    assert (Hk : k = (Z.to_nat (53 - d) + Pos.to_nat p)%nat) by lia.
    assert (Hsh : Pos.shiftl_nat N k = Pos.shiftl_nat (Pos.shiftl_nat N (Z.to_nat (53 - d))) (Pos.to_nat p)).
    { by rewrite Hk, shiftl_nat_add. }
    rewrite Hsh, shr_exact.
    cbn [shr_m loc_of_shr_record round_nearest_even Zdigits2 shr_record_of_loc].
    rewrite digits2_pos_shiftl. fold d.
    replace (- Z.of_nat k + Z.pos p) with (d - 53) by lia.
    replace (d + Z.of_nat (Z.to_nat (53 - d)) + (d - 53)) with d by lia.
    rewrite Hfexp, Z.sub_diag. cbn [shr shr_m].
    destruct (Z.leb_spec (d - 53) (emax - prec)) as [_|Hgt]; [reflexivity|].
    unfold emax, prec in Hgt. lia.
  - (* shift left *)
    rewrite <- Haux. f_equal.
    rewrite pos_iter_xO, shiftl_nat_add. do 2 f_equal. lia.
Qed.

Lemma digits_le_53 (N : positive) : Z.pos N < 2 ^ 53 -> 1 <= Z.pos (digits2_pos N) <= 53.
Proof.
  intros HN. pose proof (digits2_pos_bounds N) as [Hlo Hhi]. split; [lia|].
  destruct (Z.le_gt_cases (Z.pos (digits2_pos N)) 53) as [|Hgt]; [done|].
  assert (2 ^ 53 <= 2 ^ (Z.pos (digits2_pos N) - 1)) by (apply Z.pow_le_mono_r; lia). lia.
Qed.

Lemma canon_eq (N : positive) :
  Z.pos N < 2 ^ 53 ->
  canon N = S754_finite false (Pos.shiftl_nat N (lead N)) (- Z.of_nat (lead N)).
Proof.
  intros HN. pose proof (digits_le_53 N HN). unfold canon, lead. f_equal. lia.
Qed.

Lemma binary_normalize_exact (z : Z) :
  0 <= z < 2 ^ 53 ->
  binary_normalize prec emax z 0 false
  = match z with Z.pos N => canon N | _ => S754_zero false end.
Proof.
  intros Hz. destruct z as [|N|N]; [reflexivity| |lia].
  cbn [binary_normalize]. apply (binary_round_exact N 0). lia.
Qed.

Lemma shl_align_shift (N : positive) (j k : nat) :
  (j <= k)%nat ->
  fst (shl_align (Pos.shiftl_nat N j) (- Z.of_nat j) (- Z.of_nat k)) = Pos.shiftl_nat N k.
Proof.
  intros Hjk. unfold shl_align.
  destruct (- Z.of_nat k - - Z.of_nat j) as [|p|p] eqn:Hsub; cbn [fst].
  - f_equal. lia.
  - lia.
  - rewrite pos_iter_xO, shiftl_nat_add. f_equal. lia.
Qed.

Lemma min_neg (j k : nat) : Z.min (- Z.of_nat j) (- Z.of_nat k) = - Z.of_nat (Nat.max j k).
Proof. lia. Qed.

Lemma SFadd_canon (a b : positive) :
  Z.pos a + Z.pos b < 2 ^ 53 ->
  SF64add (canon a) (canon b) = canon (a + b).
Proof.
  intros Hab. rewrite !canon_eq by lia. unfold SF64add, SFadd.
  rewrite min_neg.
  rewrite !shl_align_shift by lia. cbn [cond_Zopp].
  assert (Hsum : Z.pos (Pos.shiftl_nat a (Nat.max (lead a) (lead b)))
                 + Z.pos (Pos.shiftl_nat b (Nat.max (lead a) (lead b)))
                 = Z.pos (Pos.shiftl_nat (a + b) (Nat.max (lead a) (lead b)))).
  { rewrite !shiftl_nat_Z. lia. }
  rewrite Hsum. cbn [binary_normalize].
  rewrite binary_round_exact by lia. apply canon_eq. lia.
Qed.

Lemma SFsub_canon (a b : positive) :
  Z.pos a < 2 ^ 53 -> Z.pos b <= Z.pos a ->
  SF64sub (canon a) (canon b)
  = match Z.pos a - Z.pos b with Z.pos N => canon N | _ => S754_zero false end.
Proof.
  intros Ha Hba. rewrite !canon_eq by lia. unfold SF64sub, SFsub.
  rewrite min_neg.
  rewrite !shl_align_shift by lia. cbn [cond_Zopp].
  destruct (Z.pos a - Z.pos b) as [|N|N] eqn:Hd; [| |lia].
  - assert (a = b) as -> by lia. rewrite Z.sub_diag. reflexivity.
  - assert (Hdiff : Z.pos (Pos.shiftl_nat a (Nat.max (lead a) (lead b)))
                 - Z.pos (Pos.shiftl_nat b (Nat.max (lead a) (lead b)))
                 = Z.pos (Pos.shiftl_nat N (Nat.max (lead a) (lead b)))).
    { rewrite !shiftl_nat_Z. lia. }
    rewrite Hdiff. cbn [binary_normalize].
    rewrite binary_round_exact by lia. reflexivity.
Qed.

Lemma Prim2SF_number_of_Z (z : Z) :
  0 <= z < 2 ^ 53 ->
  Prim2SF (number_of_Z z) = match z with Z.pos N => canon N | _ => S754_zero false end.
Proof.
  intros Hz. unfold number_of_Z. rewrite of_uint63_spec, Uint63.of_Z_spec.
  rewrite Z.mod_small.
  - by apply binary_normalize_exact.
  - split; [lia|]. eapply Z.lt_trans; [apply Hz|]. reflexivity.
Qed.

Lemma Prim2SF_inj (x y : float) : Prim2SF x = Prim2SF y -> x = y.
Proof. intros H. rewrite <- (SF2Prim_Prim2SF x), <- (SF2Prim_Prim2SF y). by rewrite H. Qed.

Lemma number_of_Z_add (a b : Z) :
  0 <= a -> 0 <= b -> a + b < 2 ^ 53 -> (number_of_Z a + number_of_Z b)%float = number_of_Z (a + b).
Proof.
  intros Ha Hb Hab. apply Prim2SF_inj.
  rewrite add_spec, !Prim2SF_number_of_Z by lia.
  destruct a as [|a|a], b as [|b|b]; try lia; cbn [Z.add]; try reflexivity.
  apply SFadd_canon. lia.
Qed.

Lemma number_of_Z_sub (a b : Z) :
  0 <= b <= a -> a < 2 ^ 53 -> (number_of_Z a - number_of_Z b)%float = number_of_Z (a - b).
Proof.
  intros Hb Ha. apply Prim2SF_inj.
  rewrite sub_spec, !Prim2SF_number_of_Z by lia.
  destruct a as [|a|a], b as [|b|b]; try lia; try reflexivity.
  apply SFsub_canon; lia.
Qed.

(** ** CircularDeque: every method against the representation invariant *)

Module CircularFacts.
Import CircularDeque CircularRep.

Lemma rem_wrap x c : 0 < c -> 0 <= x < 2 * c -> Z.rem x c = if x <? c then x else x - c.
Proof.
  intros Hc Hx. rewrite Z.rem_mod_nonneg by lia.
  destruct (Z.ltb_spec x c).
  - apply Z.mod_small; lia.
  - replace x with ((x - c) + 1 * c) at 1 by lia. rewrite Z.mod_add by lia. apply Z.mod_small; lia.
Qed.

Section Facts.
Context {T : Type}.
Implicit Types (a : list (option T)) (d : t T).

Lemma arr_get_set_eq a i v : 0 <= i < Z.of_nat (length a) -> arr_get (arr_set a i v) i = v.
Proof.
  intros H. unfold arr_get, arr_set.
  destruct (Z.ltb_spec i 0); [lia|].
  destruct (Nat.ltb_spec (Z.to_nat i) (length a)); [|lia].
  rewrite list_lookup_insert_eq by lia. reflexivity.
Qed.

Lemma arr_get_set_ne a i j v : 0 <= i < Z.of_nat (length a) -> i <> j -> arr_get (arr_set a i v) j = arr_get a j.
Proof.
  intros H Hne. unfold arr_get, arr_set.
  destruct (Z.ltb_spec i 0); [lia|].
  destruct (Nat.ltb_spec (Z.to_nat i) (length a)); [|lia].
  destruct (Z.ltb_spec j 0); [done|].
  rewrite list_lookup_insert_ne by lia. reflexivity.
Qed.

Lemma arr_set_length a i v : 0 <= i < Z.of_nat (length a) -> length (arr_set a i v) = length a.
Proof.
  intros H. unfold arr_set.
  destruct (Z.ltb_spec i 0); [lia|].
  destruct (Nat.ltb_spec (Z.to_nat i) (length a)); [|lia].
  apply length_insert.
Qed.

Lemma for_each_pure {S A} (g : S -> A -> Z -> A) (body : A -> Z -> M S A) idx :
  (forall acc i s, body acc i s = (Normal (g s acc i), s)) ->
  forall acc s, for_each idx acc body s = (Normal (fold_left (g s) idx acc), s).
Proof.
  intros Hb. induction idx as [|i idx IH]; intros acc s; simpl; [done|].
  unfold bind. rewrite Hb. apply IH.
Qed.

Lemma fold_left_snoc {A B} (f : B -> A) idx acc :
  fold_left (fun r i => r ++ [f i]) idx acc = acc ++ map f idx.
Proof.
  revert acc. induction idx as [|i idx IH]; intros acc; simpl.
  - by rewrite app_nil_r.
  - rewrite IH. by rewrite <- app_assoc.
Qed.

Lemma toArray_elems d : toArray d = (Normal (elems d), d).
Proof.
  unfold toArray, bind, gets.
  rewrite (for_each_pure (fun d r i => r ++ [arr_get (buffer d) (Z.rem (head d + i) (capacity d))])) by done.
  by rewrite fold_left_snoc.
Qed.

Ltac rem_cases :=
  repeat match goal with
  | |- context [Z.rem ?x ?c] =>
      lazymatch x with
      | context [Z.rem _ _] => fail
      | _ => rewrite (rem_wrap x c) by lia; destruct (Z.ltb_spec x c)
      end
  | H : context [Z.rem ?x ?c] |- _ =>
      lazymatch x with
      | context [Z.rem _ _] => fail
      | _ => rewrite (rem_wrap x c) in H by lia; destruct (Z.ltb_spec x c)
      end
  end.

Lemma in_seqZ (k m n : Z) : In k (seqZ m n) <-> m <= k < m + n.
Proof. rewrite <- list_elem_of_In. apply elem_of_seqZ. Qed.

Lemma seqZ_snoc (n : Z) : 0 <= n -> seqZ 0 (n + 1) = seqZ 0 n ++ [n].
Proof.
  intros Hn. rewrite seqZ_app by lia. f_equal.
Qed.

Lemma seqZ_shift (n : Z) : seqZ 1 n = map (Z.add 1) (seqZ 0 n).
Proof. symmetry. apply (fmap_add_seqZ 1 0 n). Qed.

Lemma map_arr_get_prefix (E R : list (option T)) :
  map (fun i => arr_get (E ++ R) i) (seqZ 0 (Z.of_nat (length E))) = E.
Proof.
  apply list_eq. intros k.
  change (map ?f ?l) with (f <$> l).
  rewrite list_lookup_fmap.
  destruct (decide (k < length E)%nat) as [Hk|Hk].
  - rewrite lookup_seqZ_lt by lia. simpl. unfold arr_get.
    destruct (Z.ltb_spec (0 + Z.of_nat k) 0); [lia|].
    replace (Z.to_nat (0 + Z.of_nat k)) with k by lia.
    rewrite lookup_app_l by lia.
    destruct (lookup_lt_is_Some_2 E k Hk) as [x Hx]. rewrite Hx. reflexivity.
  - rewrite lookup_seqZ_ge by lia. simpl. symmetry. apply lookup_ge_None. lia.
Qed.

Lemma fold_arr_set (f : Z -> option T) (n : nat) (init : list (option T)) :
  (n <= length init)%nat ->
  fold_left (fun nb i => arr_set nb i (f i)) (seqZ 0 (Z.of_nat n)) init
  = map f (seqZ 0 (Z.of_nat n)) ++ drop n init.
Proof.
  induction n as [|n IH]; intros Hn.
  - simpl. by rewrite drop_0.
  - replace (Z.of_nat (S n)) with (Z.of_nat n + 1) by lia.
    rewrite seqZ_snoc by lia. rewrite fold_left_app, map_app. simpl.
    rewrite IH by lia.
    assert (Hlen : length (map f (seqZ 0 (Z.of_nat n))) = n).
    { rewrite length_map, length_seqZ. lia. }
    unfold arr_set. destruct (Z.ltb_spec (Z.of_nat n) 0); [lia|].
    rewrite Nat2Z.id.
    destruct (Nat.ltb_spec n (length (map f (seqZ 0 (Z.of_nat n)) ++ drop n init))) as [_|Hge].
    2:{ rewrite length_app, length_drop in Hge. lia. }
    rewrite insert_app_r_alt by lia. rewrite Hlen, Nat.sub_diag.
    destruct (drop n init) as [|x rest] eqn:Hd.
    { apply (f_equal length) in Hd. rewrite length_drop in Hd. simpl in Hd. lia. }
    assert (drop (S n) init = rest) as ->.
    { replace (S n) with (n + 1)%nat by lia. by rewrite <- drop_drop, Hd. }
    simpl. rewrite <- app_assoc. reflexivity.
Qed.

Lemma grow_buffer_full d :
  wf d -> _size d = capacity d ->
  fold_left (fun nb i => arr_set nb i (arr_get (buffer d) (Z.rem (head d + i) (capacity d))))
    (seqZ 0 (_size d)) (new_Array (capacity d * 2))
  = elems d ++ replicate (Z.to_nat (capacity d)) None.
Proof.
  intros [Hc Hl Hh Hs Ht] Hfull.
  rewrite <- (Z2Nat.id (_size d)) at 1 by lia.
  rewrite fold_arr_set.
  2:{ unfold new_Array. rewrite length_replicate. lia. }
  unfold elems. rewrite Z2Nat.id by lia. f_equal.
  unfold new_Array. rewrite drop_replicate. f_equal. lia.
Qed.

Lemma _grow_full d : wf d -> _size d = capacity d -> _grow d = (Normal tt, grown d).
Proof.
  intros Hwf Hfull. unfold _grow, bind, gets, modify.
  rewrite (for_each_pure (fun d nb i => arr_set nb i (arr_get (buffer d) (Z.rem (head d + i) (capacity d))))) by done.
  rewrite grow_buffer_full by done. reflexivity.
Qed.

Lemma elems_length d : 0 <= _size d -> Z.of_nat (length (elems d)) = _size d.
Proof. intros. unfold elems. rewrite length_map, length_seqZ. lia. Qed.

Lemma grown_wf d : wf d -> _size d = capacity d -> wf (grown d).
Proof.
  intros [Hc Hl Hh Hs Ht] Hfull. pose proof (elems_length d ltac:(lia)) as Hel.
  split; cbn; try lia.
  - rewrite length_app, length_replicate. lia.
  - rem_cases; lia.
Qed.

Lemma grown_elems d : wf d -> _size d = capacity d -> elems (grown d) = elems d.
Proof.
  intros [Hc Hl Hh Hs Ht] Hfull. pose proof (elems_length d ltac:(lia)) as Hel.
  unfold elems at 1. cbn.
  rewrite <- Hel at 1.
  rewrite <- (map_arr_get_prefix (elems d) (replicate (Z.to_nat (capacity d)) None)) at 2.
  apply map_ext_in. intros i Hi. apply in_seqZ in Hi.
  f_equal. rem_cases; lia.
Qed.

Lemma push_exec v d :
  wf d ->
  push v d = (Normal tt, push_slot v (if _size d =? capacity d then grown d else d)).
Proof.
  intros Hwf. unfold push, bind, gets.
  destruct (Z.eqb_spec (_size d) (capacity d)) as [Hfull|Hne].
  - rewrite _grow_full by done. reflexivity.
  - reflexivity.
Qed.

Lemma push_slot_wf v d : wf d -> _size d < capacity d -> wf (push_slot v d).
Proof.
  intros [Hc Hl Hh Hs Ht] Hlt.
  assert (0 <= tail d < capacity d) by (rewrite Ht; rem_cases; lia).
  split; cbn; try lia.
  - rewrite arr_set_length by lia. lia.
  - rewrite Ht. rem_cases; lia.
Qed.

Lemma push_slot_elems v d :
  wf d -> _size d < capacity d -> elems (push_slot v d) = elems d ++ [Some v].
Proof.
  intros [Hc Hl Hh Hs Ht] Hlt.
  assert (0 <= tail d < capacity d) by (rewrite Ht; rem_cases; lia).
  unfold elems. cbn. rewrite seqZ_snoc, map_app by lia. cbn. f_equal.
  - apply map_ext_in. intros i Hi. apply in_seqZ in Hi.
    apply arr_get_set_ne; [lia|]. rewrite Ht. rem_cases; lia.
  - f_equal. rewrite <- Ht. apply arr_get_set_eq. lia.
Qed.

Lemma push_repr v d l :
  repr d l -> exists d', push v d = (Normal tt, d') /\ repr d' (l ++ [v]).
Proof.
  intros [Hwf Hel]. eexists. split; [apply push_exec; done|].
  destruct (Z.eqb_spec (_size d) (capacity d)) as [Hfull|Hne].
  - pose proof (grown_wf d Hwf Hfull) as Hwf'. 
    assert (_size (grown d) < capacity (grown d)) by (destruct Hwf; cbn; lia).
    split; [by apply push_slot_wf|].
    rewrite push_slot_elems, grown_elems, Hel, map_app by done. reflexivity.
  - assert (_size d < capacity d) by (destruct Hwf; lia).
    split; [by apply push_slot_wf|].
    rewrite push_slot_elems, Hel, map_app by done. reflexivity.
Qed.

Lemma repr_size d l : repr d l -> _size d = Z.of_nat (length l).
Proof.
  intros [Hwf Hel]. apply (f_equal length) in Hel.
  rewrite length_map in Hel. rewrite <- Hel. symmetry. apply elems_length. destruct Hwf; lia.
Qed.

Lemma repr_head d x l : repr d (x :: l) -> arr_get (buffer d) (head d) = Some x.
Proof.
  intros Hr. pose proof (repr_size _ _ Hr) as Hsz. destruct Hr as [[Hc Hl Hh Hs Ht] Hel].
  simpl in Hsz. unfold elems in Hel. rewrite seqZ_cons in Hel by lia. simpl in Hel.
  injection Hel as Hx _. rewrite <- Hx. f_equal. rem_cases; lia.
Qed.

Lemma shift_exec d :
  shift d = if _size d =? 0 then (Normal None, d)
            else (Normal (arr_get (buffer d) (head d)), shifted d).
Proof. unfold shift, bind, gets. destruct (_size d =? 0); reflexivity. Qed.

Lemma shifted_repr d x l : repr d (x :: l) -> repr (shifted d) l.
Proof.
  intros Hr. pose proof (repr_size _ _ Hr) as Hsz. destruct Hr as [[Hc Hl Hh Hs Ht] Hel].
  simpl in Hsz. split.
  - split; cbn; try lia.
    + rewrite arr_set_length by lia. lia.
    + rem_cases; lia.
    + rewrite Ht. rem_cases; lia.
  - unfold elems in *. cbn. rewrite seqZ_cons in Hel by lia. simpl in Hel.
    injection Hel as _ Hel. rewrite <- Hel.
    replace (Z.succ 0) with 1 by lia. rewrite seqZ_shift, map_map.
    apply map_ext_in. intros i Hi. apply in_seqZ in Hi.
    rewrite arr_get_set_ne; [|lia|rem_cases; lia].
    f_equal. rem_cases; lia.
Qed.

Lemma shift_cons d x l :
  repr d (x :: l) -> shift d = (Normal (Some x), shifted d).
Proof.
  intros Hr. rewrite shift_exec. pose proof (repr_size _ _ Hr) as Hsz. simpl in Hsz.
  destruct (Z.eqb_spec (_size d) 0); [lia|]. by rewrite (repr_head d x l).
Qed.

Lemma peekFirst_exec d :
  peekFirst d = (Normal (if _size d =? 0 then None else arr_get (buffer d) (head d)), d).
Proof. unfold peekFirst, bind, gets. by destruct (_size d =? 0). Qed.

Lemma peekFirst_repr d l : repr d l -> peekFirst d = (Normal (hd_error l), d).
Proof.
  intros Hr. rewrite peekFirst_exec. pose proof (repr_size _ _ Hr) as Hsz.
  destruct l as [|x l]; simpl in *.
  - rewrite Hsz. reflexivity.
  - destruct (Z.eqb_spec (_size d) 0); [lia|]. by rewrite (repr_head d x l).
Qed.

Lemma peekLast_exec d :
  peekLast d = (Normal (if _size d =? 0 then None
                        else arr_get (buffer d) (Z.rem (tail d - 1 + capacity d) (capacity d))), d).
Proof. unfold peekLast, bind, gets. by destruct (_size d =? 0). Qed.

Lemma peekLast_repr d l : repr d l -> peekLast d = (Normal (last l), d).
Proof.
  intros Hr. rewrite peekLast_exec. pose proof (repr_size _ _ Hr) as Hsz.
  destruct Hr as [[Hc Hl Hh Hs Ht] Hel].
  destruct l as [|x0 l0] using rev_ind; simpl in *.
  - rewrite Hsz. reflexivity.
  - clear IHl0. rewrite length_app in Hsz. simpl in Hsz.
    destruct (Z.eqb_spec (_size d) 0); [lia|].
    rewrite last_snoc. do 2 f_equal.
    unfold elems in Hel. replace (_size d) with (Z.of_nat (length l0) + 1) in Hel by lia.
    rewrite seqZ_snoc, !map_app in Hel by lia. simpl in Hel.
    apply app_inj_tail in Hel as [_ Hx]. rewrite <- Hx. f_equal.
    rewrite Ht. rem_cases; lia.
Qed.

Lemma constructor_repr c : repr (constructor (T:=T) c) [].
Proof.
  split; [|reflexivity].
  split; cbn; try lia.
  - unfold new_Array. rewrite length_replicate. lia.
  - rem_cases; lia.
Qed.
End Facts.

End CircularFacts.
Import CircularRep CircularFacts.

(** ** TimeWindowDeque: push and expire on the live samples *)

Lemma omap_id_Some {A} (l : list A) : omap id (map Some l) = l.
Proof. induction l as [|x l IH]; [done|]. cbn. f_equal. exact IH. Qed.

Lemma repr_live s l : repr (TimeWindowDeque.data s) l -> live s = l.
Proof. intros [_ Hel]. unfold live. rewrite Hel. apply omap_id_Some. Qed.

Lemma repr_inv s l : repr (TimeWindowDeque.data s) l -> inv s.
Proof. intros Hr. unfold inv. by rewrite (repr_live s l Hr). Qed.

Lemma on_data_exec {A} (m : M (CircularDeque.t PriceData) A) s r d' :
  m (TimeWindowDeque.data s) = (r, d') ->
  TimeWindowDeque.on_data m s = (r, TimeWindowDeque.set_data d' s).
Proof. intros H. unfold TimeWindowDeque.on_data. by rewrite H. Qed.

Lemma set_data_same s : TimeWindowDeque.set_data (TimeWindowDeque.data s) s = s.
Proof. by destruct s. Qed.

Lemma constructor_inv cap : inv (TimeWindowDeque.constructor cap).
Proof. apply (repr_inv _ []). apply constructor_repr. Qed.

Lemma push_spec p ts s :
  inv s ->
  exists s', TimeWindowDeque.push p ts s = (Normal tt, s')
    /\ inv s'
    /\ live s' = live s ++ [mkPriceData p ts]
    /\ TimeWindowDeque.sum s' = (TimeWindowDeque.sum s + p)%float
    /\ TimeWindowDeque.expiredData s' = TimeWindowDeque.expiredData s.
Proof.
  intros Hinv. destruct (push_repr (mkPriceData p ts) _ _ Hinv) as (d' & Hpush & Hr).
  eexists. split.
  { unfold TimeWindowDeque.push, bind. rewrite (on_data_exec _ _ _ _ Hpush). reflexivity. }
  cbn. split; [eapply repr_inv; exact Hr|]. split; [|done].
  apply repr_live. exact Hr.
Qed.

Lemma on_data_size s :
  TimeWindowDeque.on_data CircularDeque.size s
  = (Normal (CircularDeque._size (TimeWindowDeque.data s)), s).
Proof. by destruct s. Qed.

Lemma on_data_peekFirst s :
  TimeWindowDeque.on_data CircularDeque.peekFirst s
  = (Normal (if CircularDeque._size (TimeWindowDeque.data s) =? 0 then None
             else arr_get (CircularDeque.buffer (TimeWindowDeque.data s))
                          (CircularDeque.head (TimeWindowDeque.data s))), s).
Proof. unfold TimeWindowDeque.on_data. rewrite peekFirst_exec. by destruct s. Qed.

Lemma on_data_shift s :
  TimeWindowDeque.on_data CircularDeque.shift s
  = if CircularDeque._size (TimeWindowDeque.data s) =? 0 then (Normal None, s)
    else (Normal (arr_get (CircularDeque.buffer (TimeWindowDeque.data s))
                          (CircularDeque.head (TimeWindowDeque.data s))),
          TimeWindowDeque.set_data (shifted (TimeWindowDeque.data s)) s).
Proof.
  unfold TimeWindowDeque.on_data. rewrite shift_exec.
  destruct (CircularDeque._size (TimeWindowDeque.data s) =? 0); [by destruct s|done].
Qed.

Lemma expire_loop_S fuel c s :
  TimeWindowDeque.expire_loop (S fuel) c s =
    if 0 <? CircularDeque._size (TimeWindowDeque.data s) then
      match arr_get (CircularDeque.buffer (TimeWindowDeque.data s))
                    (CircularDeque.head (TimeWindowDeque.data s)) with
      | None => (Normal tt, s)
      | Some f =>
          if (c <=? timestamp f)%float then (Normal tt, s)
          else TimeWindowDeque.expire_loop fuel c (evict_first f s)
      end
    else (Normal tt, s).
Proof.
  cbn [TimeWindowDeque.expire_loop].
  unfold bind at 1. rewrite on_data_size.
  destruct (Z.ltb_spec 0 (CircularDeque._size (TimeWindowDeque.data s))) as [Hpos|Hle]; [|reflexivity].
  unfold bind at 1. rewrite on_data_peekFirst.
  destruct (Z.eqb_spec (CircularDeque._size (TimeWindowDeque.data s)) 0) as [|_]; [lia|].
  destruct (arr_get _ _) as [f|] eqn:Hget; [|reflexivity].
  destruct (c <=? timestamp f)%float; [reflexivity|].
  unfold bind at 1. rewrite on_data_shift.
  destruct (Z.eqb_spec (CircularDeque._size (TimeWindowDeque.data s)) 0) as [|_]; [lia|].
  rewrite Hget. reflexivity.
Qed.

Lemma expire_loop_spec c l :
  forall fuel s,
    repr (TimeWindowDeque.data s) l -> (length l < fuel)%nat ->
    exists s', TimeWindowDeque.expire_loop fuel c s = (Normal tt, s')
      /\ repr (TimeWindowDeque.data s') (drop_while (stale c) l)
      /\ TimeWindowDeque.expiredData s' = TimeWindowDeque.expiredData s ++ take_while (stale c) l
      /\ TimeWindowDeque.sum s' = sub_prices (TimeWindowDeque.sum s) (take_while (stale c) l).
Proof.
  induction l as [|x l IH]; intros fuel s Hr Hfuel;
    (destruct fuel as [|fuel]; [simpl in Hfuel; lia|]);
    rewrite expire_loop_S; pose proof (repr_size _ _ Hr) as Hsz; simpl length in Hsz.
  - destruct (Z.ltb_spec 0 (CircularDeque._size (TimeWindowDeque.data s))); [lia|].
    exists s. simpl. rewrite app_nil_r. done.
  - destruct (Z.ltb_spec 0 (CircularDeque._size (TimeWindowDeque.data s))); [|lia].
    rewrite (repr_head _ _ _ Hr). simpl. unfold stale at 1 3 5.
    destruct (c <=? timestamp x)%float; cbn [negb].
    + exists s. rewrite app_nil_r. done.
    + destruct (IH fuel (evict_first x s)) as (s' & Hrun & Hr' & He & Hs).
      { cbn. by apply (shifted_repr _ x). }
      { simpl in Hfuel. lia. }
      exists s'. split; [exact Hrun|]. split; [exact Hr'|]. cbn in He, Hs.
      rewrite He, Hs. by rewrite <- app_assoc.
Qed.

Lemma take_drop_while {A} (f : A -> bool) l : take_while f l ++ drop_while f l = l.
Proof. induction l as [|x l IH]; simpl; [done|]. destruct (f x); simpl; by rewrite ?IH. Qed.

Lemma expire_spec c s :
  inv s ->
  exists s', TimeWindowDeque.expire c s = (Normal tt, s')
    /\ inv s'
    /\ live s' = drop_while (stale c) (live s)
    /\ TimeWindowDeque.expiredData s'
       = TimeWindowDeque.expiredData s ++ take_while (stale c) (live s)
    /\ TimeWindowDeque.sum s' = sub_prices (TimeWindowDeque.sum s) (take_while (stale c) (live s)).
Proof.
  intros Hinv. unfold TimeWindowDeque.expire.
  destruct (expire_loop_spec c (live s) (S (Z.to_nat (CircularDeque._size (TimeWindowDeque.data s)))) s Hinv)
    as (s' & Hrun & Hr & He & Hs).
  { rewrite (repr_size _ _ Hinv). lia. }
  exists s'. split; [exact Hrun|]. split; [eapply repr_inv; exact Hr|].
  split; [by apply repr_live|]. done.
Qed.

Lemma step_inv o s : inv s -> exists s', step o s = (Normal tt, s') /\ inv s'.
Proof.
  intros Hinv. destruct o as [p ts|c]; simpl.
  - destruct (push_spec p ts s Hinv) as (s' & ? & ? & _). eauto.
  - destruct (expire_spec c s Hinv) as (s' & ? & ? & _). eauto.
Qed.

Lemma run_inv ops : forall s, inv s -> exists s', run ops s = (Normal tt, s') /\ inv s'.
Proof.
  induction ops as [|o ops IH]; intros s Hinv; simpl.
  - eauto.
  - destruct (step_inv o s Hinv) as (s1 & Hstep & Hinv1).
    destruct (IH s1 Hinv1) as (s' & Hrun & Hinv').
    exists s'. unfold bind. rewrite Hstep. done.
Qed.

Lemma after_inv cap ops : inv (after cap ops).
Proof.
  destruct (run_inv ops _ (constructor_inv cap)) as (s' & Hrun & Hinv).
  unfold after. by rewrite Hrun.
Qed.

Lemma after_normal cap ops :
  run ops (TimeWindowDeque.constructor cap) = (Normal tt, after cap ops).
Proof.
  destruct (run_inv ops _ (constructor_inv cap)) as (s' & Hrun & Hinv).
  unfold after. by rewrite Hrun.
Qed.

(** ** The queries, and the array version's methods *)

(** Queries of the circular version. *)
Lemma size_exec s :
  TimeWindowDeque.size s = (Normal (CircularDeque._size (TimeWindowDeque.data s)), s).
Proof. apply on_data_size. Qed.

Lemma size_live s : inv s -> TimeWindowDeque.size s = (Normal (Z.of_nat (length (live s))), s).
Proof. intros Hinv. rewrite size_exec. by rewrite (repr_size _ _ Hinv). Qed.

Lemma getSum_exec s : TimeWindowDeque.getSum s = (Normal (TimeWindowDeque.sum s), s).
Proof. reflexivity. Qed.

Lemma getExpiredValues_exec s :
  TimeWindowDeque.getExpiredValues s = (Normal (TimeWindowDeque.expiredData s), s).
Proof. reflexivity. Qed.

Lemma getHistory_exec s :
  TimeWindowDeque.getHistory s = (Normal (elems (TimeWindowDeque.data s)), s).
Proof.
  unfold TimeWindowDeque.getHistory, TimeWindowDeque.on_data.
  rewrite toArray_elems. by destruct s.
Qed.

Lemma getHistory_live s :
  inv s -> TimeWindowDeque.getHistory s = (Normal (map Some (live s)), s).
Proof. intros [_ Hel]. rewrite getHistory_exec. by rewrite Hel. Qed.

Lemma arr_map_get_price {S} (l : list PriceData) (s : S) :
  arr_map get_price (map Some l) s = (Normal (map price l), s).
Proof.
  induction l as [|x l IH]; [done|].
  cbn [map arr_map get_price]. unfold bind at 1. cbn [ret].
  unfold bind at 1. rewrite IH. reflexivity.
Qed.

Lemma getValues_live s :
  inv s -> TimeWindowDeque.getValues s = (Normal (map price (live s)), s).
Proof.
  intros Hinv. unfold TimeWindowDeque.getValues, bind.
  fold TimeWindowDeque.getHistory. rewrite (getHistory_live s Hinv).
  apply arr_map_get_price.
Qed.

Lemma getLatestPrice_live s :
  inv s ->
  TimeWindowDeque.getLatestPrice s
  = (Normal (match last (live s) with Some l => Some (price l) | None => None end), s).
Proof.
  intros Hinv. unfold TimeWindowDeque.getLatestPrice, bind.
  rewrite (on_data_exec _ _ _ _ (peekLast_repr _ _ Hinv)). by rewrite set_data_same.
Qed.

Lemma getAverage_exec s :
  TimeWindowDeque.getAverage s
  = (Normal (if 0 <? CircularDeque._size (TimeWindowDeque.data s)
             then Some (TimeWindowDeque.sum s
                        / number_of_Z (CircularDeque._size (TimeWindowDeque.data s)))%float
             else None), s).
Proof.
  unfold TimeWindowDeque.getAverage, bind. rewrite size_exec.
  by destruct (0 <? _).
Qed.

(** The array version. *)
Lemma array_push_exec p ts a :
  ArrayImpl.push p ts a
  = (Normal tt, ArrayImpl.mk (ArrayImpl.data a ++ [mkPriceData p ts])
                  (ArrayImpl.sum a + p)%float (ArrayImpl.expiredData a)).
Proof. reflexivity. Qed.

Lemma array_expire_loop_S fuel c a :
  ArrayImpl.expire_loop (S fuel) c a =
    match ArrayImpl.data a with
    | [] => (Normal tt, a)
    | x :: l =>
        if (timestamp x <? c)%float then
          ArrayImpl.expire_loop fuel c
            (ArrayImpl.mk l (ArrayImpl.sum a - price x)%float (ArrayImpl.expiredData a ++ [x]))
        else (Normal tt, a)
    end.
Proof.
  destruct a as [[|x l] sm ex]; [reflexivity|].
  cbn [ArrayImpl.expire_loop]. unfold bind at 1. cbn [gets ArrayImpl.data length].
  destruct (Z.ltb_spec 0 (Z.of_nat (S (length l)))) as [_|]; [|lia].
  unfold bind at 1. cbn [gets ArrayImpl.data lookup list_lookup].
  destruct (timestamp x <? c)%float; reflexivity.
Qed.

Lemma array_expire_loop_spec c :
  forall l fuel sm ex,
    (length l < fuel)%nat ->
    ArrayImpl.expire_loop fuel c (ArrayImpl.mk l sm ex)
    = (Normal tt, ArrayImpl.mk (drop_while (array_stale c) l)
                    (sub_prices sm (take_while (array_stale c) l))
                    (ex ++ take_while (array_stale c) l)).
Proof.
  induction l as [|x l IH]; intros fuel sm ex Hfuel;
    (destruct fuel as [|fuel]; [simpl in Hfuel; lia|]); rewrite array_expire_loop_S;
    cbn [ArrayImpl.data ArrayImpl.sum ArrayImpl.expiredData take_while drop_while].
  - cbn. by rewrite app_nil_r.
  - unfold array_stale at 1 3 5. destruct (timestamp x <? c)%float.
    + rewrite IH by (simpl in Hfuel; lia). cbn. by rewrite <- app_assoc.
    + cbn. by rewrite app_nil_r.
Qed.

Lemma array_expire_exec c a :
  ArrayImpl.expire c a
  = (Normal tt, ArrayImpl.mk (drop_while (array_stale c) (ArrayImpl.data a))
                  (sub_prices (ArrayImpl.sum a) (take_while (array_stale c) (ArrayImpl.data a)))
                  (ArrayImpl.expiredData a ++ take_while (array_stale c) (ArrayImpl.data a))).
Proof.
  unfold ArrayImpl.expire. destruct a as [l sm ex]. cbn [ArrayImpl.data ArrayImpl.sum ArrayImpl.expiredData].
  apply array_expire_loop_spec. lia.
Qed.

Lemma array_getLatestPrice_exec a :
  ArrayImpl.getLatestPrice a
  = (Normal (match last (ArrayImpl.data a) with Some l => Some (price l) | None => None end), a).
Proof.
  unfold ArrayImpl.getLatestPrice, bind, gets.
  destruct (ArrayImpl.data a) as [|x0 l0] eqn:Hd using rev_ind; [done|].
  clear IHl0. rewrite length_app. cbn [length].
  destruct (Z.ltb_spec 0 (Z.of_nat (length l0 + 1))) as [_|]; [|lia].
  rewrite last_snoc.
  replace (Z.to_nat (Z.of_nat (length l0 + 1) - 1)) with (length l0) by lia.
  rewrite Hd. rewrite list_lookup_middle by done. reflexivity.
Qed.

Lemma stale_array_stale c p :
  is_nan c = false -> not_nan_time p -> stale c p = array_stale c p.
Proof. intros Hc Hp. unfold stale, array_stale. symmetry. by apply ltb_negb_leb. Qed.

Lemma take_while_ext {A} (f g : A -> bool) l :
  Forall (fun x => f x = g x) l -> take_while f l = take_while g l.
Proof. induction 1 as [|x l Hx _ IH]; simpl; [done|]. by rewrite Hx, IH. Qed.

Lemma drop_while_ext {A} (f g : A -> bool) l :
  Forall (fun x => f x = g x) l -> drop_while f l = drop_while g l.
Proof. induction 1 as [|x l Hx _ IH]; simpl; [done|]. by rewrite Hx, IH. Qed.

Lemma Forall_drop_while {A} (P : A -> Prop) f l : Forall P l -> Forall P (drop_while f l).
Proof.
  induction 1 as [|x l Hx Hl IH]; simpl; [constructor|].
  destruct (f x); [exact IH|by constructor].
Qed.

(** ** C1: the sum invariant *)

Lemma total_app l1 l2 : total (l1 ++ l2) = total l1 + total l2.
Proof. induction l1 as [|x l1 IH]; cbn [total app]; [done|]. rewrite IH. lia. Qed.

Lemma total_nonneg l : Forall (fun x => 0 <= fst x) l -> 0 <= total l.
Proof. induction 1 as [|x l Hx _ IH]; cbn [total]; lia. Qed.

Lemma take_while_map {A B} (f : B -> bool) (g : A -> B) l :
  take_while f (map g l) = map g (take_while (fun x => f (g x)) l).
Proof. induction l as [|x l IH]; cbn; [done|]. destruct (f (g x)); cbn; by rewrite ?IH. Qed.

Lemma drop_while_map {A B} (f : B -> bool) (g : A -> B) l :
  drop_while f (map g l) = map g (drop_while (fun x => f (g x)) l).
Proof. induction l as [|x l IH]; cbn; [done|]. destruct (f (g x)); cbn; by rewrite ?IH. Qed.

Lemma scan_from_exact (l : list (Z * float)) :
  forall acc, 0 <= acc -> Forall (fun x => 0 <= fst x) l -> acc + total l < 2 ^ 53 ->
  fold_left (fun a r => (a + price r)%float) (map int_sample l) (number_of_Z acc)
  = number_of_Z (acc + total l).
Proof.
  induction l as [|x l IH]; intros acc Hacc Hl Hlt; cbn [map fold_left total int_sample price] in *.
  - f_equal. lia.
  - apply Forall_cons in Hl as [Hx Hl]. pose proof (total_nonneg l Hl) as Hn.
    rewrite number_of_Z_add by lia.
    rewrite IH; [f_equal; lia|lia|done|lia].
Qed.

Lemma scan_sum_exact (l : list (Z * float)) :
  Forall (fun x => 0 <= fst x) l -> total l < 2 ^ 53 ->
  scan_sum (map int_sample l) = number_of_Z (total l).
Proof.
  intros Hl Hlt. unfold scan_sum. change 0%float with (number_of_Z 0).
  by rewrite scan_from_exact.
Qed.

Lemma sub_prices_exact (ev : list (Z * float)) :
  forall rest, Forall (fun x => 0 <= fst x) ev -> 0 <= rest -> total ev + rest < 2 ^ 53 ->
  sub_prices (number_of_Z (total ev + rest)) (map int_sample ev) = number_of_Z rest.
Proof.
  induction ev as [|x ev IH]; intros rest Hev Hrest Hlt;
    unfold sub_prices; cbn [map fold_left total int_sample price] in *.
  - reflexivity.
  - apply Forall_cons in Hev as [Hx Hev]. pose proof (total_nonneg ev Hev) as Hn.
    rewrite number_of_Z_sub by lia.
    replace (fst x + total ev + rest - fst x) with (total ev + rest) by lia.
    apply IH; [done|lia|lia].
Qed.

Lemma total_pushed_nonneg ops :
  forallb (fun o => 0 <=? amount_of o) ops = true -> 0 <= total_pushed ops.
Proof.
  induction ops as [|o ops IH]; cbn [forallb total_pushed]; [lia|].
  intros H. apply andb_true_iff in H as [Ho H]. apply Z.leb_le in Ho.
  specialize (IH H). lia.
Qed.

Lemma run_exact (ops : list int_op) :
  forall s l,
    holds_exactly s l ->
    forallb (fun o => 0 <=? amount_of o) ops = true ->
    total l + total_pushed ops < 2 ^ 53 ->
    exists l', holds_exactly (snd (run (map to_op ops) s)) l' /\ total l' < 2 ^ 53.
Proof.
  induction ops as [|o ops IH]; intros s l Hs Hops Hlt.
  - exists l. split; [exact Hs|]. cbn [total_pushed] in Hlt. lia.
  - cbn [forallb] in Hops. apply andb_true_iff in Hops as [Ho Hops]. apply Z.leb_le in Ho.
    pose proof (total_pushed_nonneg ops Hops) as Hrest.
    cbn [total_pushed] in Hlt.
    destruct Hs as (Hinv & Hl & Hnn & Hsum).
    pose proof (total_nonneg l Hnn) as Htl.
    cbn [map run]. unfold bind.
    destruct o as [z ts|c]; cbn [to_op step amount_of] in *.
    + destruct (push_spec (number_of_Z z) ts s Hinv) as (s1 & Hrun & Hinv1 & Hl1 & Hs1 & _).
      rewrite Hrun. apply (IH s1 (l ++ [(z, ts)])); [|done|rewrite total_app; cbn [total fst]; lia].
      split; [done|]. split; [by rewrite Hl1, Hl, map_app|].
      split; [apply Forall_app; split; [done|by repeat constructor]|].
      rewrite Hs1, Hsum, total_app. cbn [total fst].
      rewrite number_of_Z_add by lia. f_equal. lia.
    + destruct (expire_spec c s Hinv) as (s1 & Hrun & Hinv1 & Hl1 & _ & Hs1).
      rewrite Hrun.
      rewrite Hl, take_while_map in Hs1. rewrite Hl, drop_while_map in Hl1.
      set (ev := take_while (fun x => stale c (int_sample x)) l) in *.
      set (kept := drop_while (fun x => stale c (int_sample x)) l) in *.
      assert (Hsplit : l = ev ++ kept) by (symmetry; apply take_drop_while).
      assert (Hev : Forall (fun x => 0 <= fst x) ev /\ Forall (fun x => 0 <= fst x) kept).
      { apply Forall_app. by rewrite <- Hsplit. }
      destruct Hev as [Hev Hkept].
      pose proof (total_nonneg ev Hev). pose proof (total_nonneg kept Hkept).
      assert (Htot : total l = total ev + total kept) by (rewrite Hsplit at 1; apply total_app).
      apply (IH s1 kept); [|done|lia].
      split; [done|]. split; [done|]. split; [done|].
      rewrite Hs1, Hsum, Htot. apply sub_prices_exact; [done|lia|lia].
Qed.

(** C1 (sum invariant), as amended.  For prices that are non-negative
    integers whose total stays below 2^53, after every sequence of [push]
    and [expire] calls [getSum()] is exactly the sum of the values of the
    live samples: the full-scan sum, which is the double that holds the
    integer total of the live amounts. *)
Theorem sum_invariant_exact (cap : Z) (ops : list int_op) :
  exact_range ops = true ->
  sum_invariant (after cap (map to_op ops))
  /\ exists l : list (Z * float),
       live (after cap (map to_op ops)) = map int_sample l
       /\ fst (TimeWindowDeque.getSum (after cap (map to_op ops)))
          = Normal (number_of_Z (total l)).
Proof.
  intros Hr. unfold exact_range in Hr. apply andb_true_iff in Hr as [Hops Hlt].
  apply Z.ltb_lt in Hlt.
  destruct (run_exact ops (TimeWindowDeque.constructor cap) []) as (l' & (Hinv & Hl & Hnn & Hsum) & Hlt').
  { split; [apply constructor_inv|]. split; [apply repr_live, constructor_repr|].
    split; [constructor|reflexivity]. }
  { exact Hops. }
  { cbn [total]. lia. }
  fold (after cap (map to_op ops)) in *.
  unfold sum_invariant. rewrite getSum_exec. cbn [fst]. rewrite Hsum, Hl. split.
  - f_equal. symmetry. by apply scan_sum_exact.
  - exists l'. done.
Qed.

Lemma sum_invariant_exact_witness :
  exact_range [IPush 100 0; IPush 101 30000; IPush 102 60000; IExpire 30000] = true
  /\ sum_invariant
       (after 4 (map to_op [IPush 100 0; IPush 101 30000; IPush 102 60000; IExpire 30000])).
Proof.
  split; [reflexivity|].
  apply (sum_invariant_exact 4 [IPush 100 0; IPush 101 30000; IPush 102 60000; IExpire 30000]).
  reflexivity.
Defined.

(** C1 as stated fails in binary64: after [push(0.1)], [push(0.2)],
    [push(0.3)] and the eviction of the first sample, [getSum()] is
    [((0.1 + 0.2) + 0.3) - 0.1 = 0.5000000000000001] while the live values
    [0.2] and [0.3] sum to [0.5]. *)
Lemma sum_invariant_fails_by_rounding :
  ~ (forall cap ops, sum_invariant (after cap ops)).
Proof.
  intros H. specialize (H 4 [Push 0.1 0; Push 0.2 1; Push 0.3 2; Expire 1]%float).
  unfold sum_invariant in H. vm_compute in H. discriminate.
Qed.

Example rounding_trace :
  let s := after 4 [Push 0.1 0; Push 0.2 1; Push 0.3 2; Expire 1]%float in
  fst (TimeWindowDeque.getSum s) = Normal 0.5000000000000001%float
  /\ fst (TimeWindowDeque.getValues s) = Normal [0.2; 0.3]%float
  /\ (0.2 + 0.3 = 0.5)%float /\ (0.3 + 0.2 = 0.5)%float.
Proof. vm_compute. repeat split. Qed.

(** The gap is not bounded by a rounding error: [1e16 + 1] is [1e16], so
    after [push(1e16)], [push(1)] and the eviction of the first sample
    [getSum()] is [0] while the one live value is [1]. *)
Example absorption_trace :
  let s := after 4 [Push 1e16 0; Push 1 1; Expire 1]%float in
  fst (TimeWindowDeque.getSum s) = Normal 0%float
  /\ fst (TimeWindowDeque.getValues s) = Normal [1%float]
  /\ ~ sum_invariant s.
Proof. vm_compute. repeat split. discriminate. Qed.

(** ** C2: what expire leaves behind *)

Lemma Forall_take_while {A} (f : A -> bool) l : Forall (fun x => f x = true) (take_while f l).
Proof.
  induction l as [|x l IH]; simpl; [constructor|].
  destruct (f x) eqn:E; by constructor.
Qed.

Lemma drop_while_head {A} (f : A -> bool) l x l' : drop_while f l = x :: l' -> f x = false.
Proof.
  induction l as [|y l IH]; simpl; [done|].
  destruct (f y) eqn:E; [exact IH|]. intros [= <- _]. exact E.
Qed.

Lemma Sorted_drop_while {A} (R : A -> A -> Prop) f l : Sorted R l -> Sorted R (drop_while f l).
Proof.
  induction 1 as [|x l Hl IH Hx]; simpl; [constructor|].
  destruct (f x); [exact IH|by constructor].
Qed.

Lemma evicted_before_cutoff c l :
  is_nan c = false -> Forall not_nan_time l ->
  Forall (fun p => (timestamp p <? c)%float = true) (take_while (stale c) l).
Proof.
  intros Hc. induction 1 as [|x l Hx _ IH]; simpl; [constructor|].
  destruct (stale c x) eqn:E; [|constructor].
  constructor; [|exact IH]. rewrite <- E. symmetry. by apply stale_array_stale.
Qed.

Lemma le_time_trans : Transitive le_time.
Proof. intros a b c. unfold le_time. apply leb_trans. Qed.

(** C2 (expire postcondition), as amended.  On a buffer whose live samples
    are in non-decreasing timestamp order, when neither the cutoff nor a
    live timestamp is NaN: [expire(cutoff)] returns; every sample left has
    [timestamp >= cutoff]; every sample it evicted has [timestamp < cutoff];
    and the evicted samples, a prefix of the live ones, are appended to the
    expired history oldest first. *)
Theorem expire_postcondition_sorted (cap : Z) (ops : list op) (cutoff : float) :
  is_nan cutoff = false ->
  Forall not_nan_time (live (after cap ops)) ->
  Sorted le_time (live (after cap ops)) ->
  fst (TimeWindowDeque.expire cutoff (after cap ops)) = Normal tt
  /\ expire_postcondition (after cap ops) cutoff.
Proof.
  intros Hc Hnn Hsorted. pose proof (after_inv cap ops) as Hinv.
  destruct (expire_spec cutoff _ Hinv) as (s' & Hrun & Hinv' & Hl' & He' & _).
  unfold expire_postcondition. rewrite Hrun. cbn [fst snd]. split; [done|].
  exists (take_while (stale cutoff) (live (after cap ops))).
  split; [by rewrite Hl', take_drop_while|]. split; [exact He'|]. split.
  - rewrite Hl'.
    pose proof (Sorted_drop_while le_time (stale cutoff) _ Hsorted) as Hs.
    destruct (drop_while (stale cutoff) (live (after cap ops))) as [|x l] eqn:Hd; [constructor|].
    apply drop_while_head in Hd. unfold stale in Hd. apply negb_false_iff in Hd.
    apply (Sorted_StronglySorted le_time_trans) in Hs.
    apply StronglySorted_inv in Hs as [_ Hall].
    constructor; [exact Hd|].
    eapply Forall_impl; [exact Hall|]. intros p Hp. eapply leb_trans; [exact Hd|exact Hp].
  - by apply evicted_before_cutoff.
Qed.

Lemma expire_postcondition_sorted_witness :
  is_nan 30000 = false
  /\ Forall not_nan_time (live (after 4 [Push 100 0; Push 101 30000; Push 102 60000]))
  /\ Sorted le_time (live (after 4 [Push 100 0; Push 101 30000; Push 102 60000]))
  /\ fst (TimeWindowDeque.expire 30000 (after 4 [Push 100 0; Push 101 30000; Push 102 60000]))
     = Normal tt
  /\ expire_postcondition (after 4 [Push 100 0; Push 101 30000; Push 102 60000]) 30000.
Proof.
  assert (Hnn : Forall not_nan_time (live (after 4 [Push 100 0; Push 101 30000; Push 102 60000])))
    by (vm_compute; repeat constructor).
  assert (Hs : Sorted le_time (live (after 4 [Push 100 0; Push 101 30000; Push 102 60000])))
    by (vm_compute; repeat constructor).
  split; [reflexivity|]. split; [exact Hnn|]. split; [exact Hs|].
  apply (expire_postcondition_sorted 4 [Push 100 0; Push 101 30000; Push 102 60000] 30000);
    [reflexivity|exact Hnn|exact Hs].
Defined.

(** C2 as stated fails for a NaN cutoff: [first.timestamp >= NaN] is
    false, so [expire(NaN)] evicts the sample pushed at time 0, and
    [0 < NaN] is false too. *)
Lemma expire_postcondition_fails_on_nan_cutoff :
  ~ (forall cap ops cutoff,
       Sorted le_time (live (after cap ops)) ->
       expire_postcondition (after cap ops) cutoff).
Proof.
  intros H. specialize (H 4 [Push 1 0] nan).
  destruct H as (evicted & Hl & _ & _ & Hev).
  { vm_compute. repeat constructor. }
  vm_compute in Hl. destruct evicted as [|x evicted]; [discriminate|].
  injection Hl as <- _. apply Forall_inv in Hev. vm_compute in Hev. discriminate.
Qed.

(** ** C3: the circular version against the array version *)

Lemma sim_step o s a :
  sim s a ->
  no_nan_times [o] = true ->
  exists s' a', step o s = (Normal tt, s') /\ array_step o a = (Normal tt, a') /\ sim s' a'.
Proof.
  intros (Hinv & Hl & Hs & He & Hnn) Ho. destruct o as [p ts|c]; cbn in Ho;
    rewrite andb_true_r in Ho; apply negb_true_iff in Ho.
  - destruct (push_spec p ts s Hinv) as (s' & Hrun & Hinv' & Hl' & Hs' & He').
    eexists s', _. split; [exact Hrun|]. split; [apply array_push_exec|].
    split; [done|]. split; [by rewrite Hl', Hl|]. split; [by rewrite Hs', Hs|].
    split; [by rewrite He', He|].
    rewrite Hl'. apply Forall_app. split; [done|]. by repeat constructor.
  - destruct (expire_spec c s Hinv) as (s' & Hrun & Hinv' & Hl' & He' & Hs').
    eexists s', _. split; [exact Hrun|]. split; [apply array_expire_exec|].
    assert (Hext : Forall (fun p => stale c p = array_stale c p) (live s)).
    { eapply Forall_impl; [exact Hnn|]. intros p Hp. by apply stale_array_stale. }
    split; [done|]. cbn [ArrayImpl.data ArrayImpl.sum ArrayImpl.expiredData].
    split; [rewrite Hl', <- Hl; by apply drop_while_ext|].
    split; [rewrite Hs', <- Hl, Hs; f_equal; by apply take_while_ext|].
    split; [rewrite He', <- Hl, He; f_equal; by apply take_while_ext|].
    rewrite Hl'. by apply Forall_drop_while.
Qed.

Lemma no_nan_times_cons o ops :
  no_nan_times (o :: ops) = true -> no_nan_times [o] = true /\ no_nan_times ops = true.
Proof. unfold no_nan_times. cbn. rewrite andb_true_r. apply andb_true_iff. Qed.

Lemma sim_run ops :
  forall s a, sim s a -> no_nan_times ops = true ->
  exists s' a', run ops s = (Normal tt, s') /\ array_run ops a = (Normal tt, a') /\ sim s' a'.
Proof.
  induction ops as [|o ops IH]; intros s a Hsim Hops.
  - exists s, a. done.
  - apply no_nan_times_cons in Hops as [Ho Hops].
    destruct (sim_step o s a Hsim Ho) as (s1 & a1 & Hs1 & Ha1 & Hsim1).
    destruct (IH s1 a1 Hsim1 Hops) as (s' & a' & Hs' & Ha' & Hsim').
    exists s', a'. cbn. unfold bind. rewrite Hs1, Ha1. done.
Qed.

Lemma sim_constructor cap : sim (TimeWindowDeque.constructor cap) ArrayImpl.constructor.
Proof.
  pose proof (constructor_inv cap) as Hinv.
  assert (Hl : live (TimeWindowDeque.constructor cap) = []) by (apply repr_live, constructor_repr).
  split; [done|]. split; [exact Hl|]. split; [done|]. split; [done|].
  rewrite Hl. constructor.
Qed.

Lemma sim_observe s a : sim s a -> observe s = array_observe a.
Proof.
  intros (Hinv & Hl & Hs & He & _). unfold observe, array_observe.
  rewrite (size_live s Hinv), (getLatestPrice_live s Hinv), (getHistory_live s Hinv),
    (getValues_live s Hinv), array_getLatestPrice_exec, getAverage_exec.
  rewrite getSum_exec, getExpiredValues_exec.
  rewrite (repr_size _ _ Hinv). cbn [fst]. rewrite Hl, Hs, He.
  unfold ArrayImpl.getAverage, ArrayImpl.size, ArrayImpl.getSum, ArrayImpl.getHistory,
    ArrayImpl.getValues, ArrayImpl.getExpiredValues, bind, gets.
  cbn [fst completion_map].
  destruct (0 <? Z.of_nat (length (ArrayImpl.data a))); reflexivity.
Qed.

(** C3 (refinement), as amended.  For every initial capacity and every
    sequence of [push] and [expire] calls in which no timestamp and no
    cutoff is NaN, both versions return from every call, and [size],
    [getSum], [getLatestPrice], [getAverage], [getHistory], [getValues] and
    [getExpiredValues] give the same results on both. *)
Theorem circular_refines_array (cap : Z) (ops : list op) :
  no_nan_times ops = true ->
  fst (run ops (TimeWindowDeque.constructor cap)) = Normal tt
  /\ fst (array_run ops ArrayImpl.constructor) = Normal tt
  /\ observe (after cap ops) = array_observe (array_after ops).
Proof.
  intros Hops.
  destruct (sim_run ops _ _ (sim_constructor cap) Hops) as (s' & a' & Hs & Ha & Hsim).
  unfold after, array_after. rewrite Hs, Ha. cbn [fst snd].
  repeat split. by apply sim_observe.
Qed.

Lemma circular_refines_array_witness :
  no_nan_times [Push 100 0; Push 101 30000; Push 102 60000; Expire 30000; Push 5 70000; Push 6 80000; Push 7 90000] = true
  /\ observe (after 4 [Push 100 0; Push 101 30000; Push 102 60000; Expire 30000; Push 5 70000; Push 6 80000; Push 7 90000])
  = array_observe (array_after [Push 100 0; Push 101 30000; Push 102 60000; Expire 30000; Push 5 70000; Push 6 80000; Push 7 90000]).
Proof.
  split; [reflexivity|].
  apply (circular_refines_array 4 [Push 100 0; Push 101 30000; Push 102 60000; Expire 30000; Push 5 70000; Push 6 80000; Push 7 90000]).
  reflexivity.
Defined.

(** C3 as stated fails for a NaN cutoff: the array version goes on while
    [timestamp < cutoff] and evicts nothing, the circular version stops when
    [timestamp >= cutoff] and evicts everything; after [push(1, 0)] and
    [expire(NaN)] the sizes are 1 and 0. *)
Lemma refinement_fails_on_nan_cutoff :
  ~ (forall cap ops, observe (after cap ops) = array_observe (array_after ops)).
Proof.
  intros H. specialize (H 4 [Push 1 0; Expire nan]).
  apply (f_equal obs_size) in H. vm_compute in H. discriminate.
Qed.

(** ** C4: growth keeps the order *)

Lemma run_app ops1 ops2 s :
  run (ops1 ++ ops2) s
  = match run ops1 s with
    | (Normal _, s1) => run ops2 s1
    | r => r
    end.
Proof.
  revert s. induction ops1 as [|o ops1 IH]; intros s; cbn; [done|].
  unfold bind. destruct (step o s) as [[[]| |] s1]; [apply IH|done|done].
Qed.

Lemma after_snoc cap ops o :
  after cap (ops ++ [o]) = snd (step o (after cap ops)).
Proof.
  unfold after. rewrite run_app, (after_normal cap ops). cbn. unfold bind.
  by destruct (step o (after cap ops)) as [[[]| |] s1].
Qed.

Lemma live_pushes cap samples :
  live (after cap (pushes samples)) = map (fun x => mkPriceData (fst x) (snd x)) samples.
Proof.
  induction samples as [|x samples IH] using rev_ind.
  - apply repr_live, constructor_repr.
  - unfold pushes. rewrite !map_app. cbn [map]. rewrite after_snoc. cbn [step].
    destruct (push_spec (fst x) (snd x) _ (after_inv cap (map (fun x => Push (fst x) (snd x)) samples)))
      as (s' & Hrun & _ & Hl & _).
    rewrite Hrun. cbn [snd]. rewrite Hl. by rewrite <- IH.
Qed.

Lemma live_after_pushes cap ops samples :
  live (after cap (ops ++ pushes samples))
  = live (after cap ops) ++ map (fun x => mkPriceData (fst x) (snd x)) samples.
Proof.
  induction samples as [|x samples IH] using rev_ind.
  - cbn [pushes map]. by rewrite !app_nil_r.
  - unfold pushes in *. rewrite !map_app. cbn [map]. rewrite !app_assoc, after_snoc. cbn [step].
    destruct (push_spec (fst x) (snd x) _
                (after_inv cap (ops ++ map (fun x => Push (fst x) (snd x)) samples)))
      as (s' & Hrun & _ & Hl & _).
    rewrite Hrun. cbn [snd]. rewrite Hl, IH. reflexivity.
Qed.

(** C4 (growth transparency).  On every buffer reached from the constructor
    by [push] and [expire] calls, for every initial capacity and so wherever
    [head] stands in the ring, pushing any further samples keeps the samples
    that were live, in their order, and puts the new ones behind them in
    push order, however often the ring grows: [getHistory()] and
    [getValues()] are the prior content followed by the new samples, and
    [size()] is the sum of the two lengths.  On a new buffer, after [n]
    pushes [getValues()] lists the [n] values in push order and [size()] is
    [n]; in particular capacity 4 and the values 100..104 give
    [[100,101,102,103,104]] and 5. *)
Theorem growth_transparent :
  (forall (cap : Z) (ops : list op) (samples : list (float * float)),
      exists prior : list PriceData,
        fst (TimeWindowDeque.getHistory (after cap ops)) = Normal (map Some prior)
        /\ fst (TimeWindowDeque.getValues (after cap ops)) = Normal (map price prior)
        /\ fst (TimeWindowDeque.getHistory (after cap (ops ++ pushes samples)))
           = Normal (map Some (prior ++ map (fun x => mkPriceData (fst x) (snd x)) samples))
        /\ fst (TimeWindowDeque.getValues (after cap (ops ++ pushes samples)))
           = Normal (map price prior ++ map fst samples)
        /\ fst (TimeWindowDeque.size (after cap (ops ++ pushes samples)))
           = Normal (Z.of_nat (length prior + length samples)))
  /\ (forall (cap : Z) (samples : list (float * float)),
      fst (TimeWindowDeque.getValues (after cap (pushes samples))) = Normal (map fst samples)
      /\ fst (TimeWindowDeque.size (after cap (pushes samples)))
         = Normal (Z.of_nat (length samples)))
  /\ (let s := after 4 (pushes [(100, 0); (101, 1000); (102, 2000); (103, 3000); (104, 4000)]%float) in
      fst (TimeWindowDeque.getValues s) = Normal [100; 101; 102; 103; 104]%float
      /\ fst (TimeWindowDeque.size s) = Normal 5).
Proof.
  assert (H : forall cap samples,
      fst (TimeWindowDeque.getValues (after cap (pushes samples))) = Normal (map fst samples)
      /\ fst (TimeWindowDeque.size (after cap (pushes samples)))
         = Normal (Z.of_nat (length samples))).
  { intros cap samples. pose proof (after_inv cap (pushes samples)) as Hinv.
    rewrite (getValues_live _ Hinv), (size_live _ Hinv), live_pushes.
    cbn [fst]. rewrite map_map, length_map. done. }
  split; [|split; [exact H|]].
  - intros cap ops samples. exists (live (after cap ops)).
    pose proof (after_inv cap ops) as Hinv.
    pose proof (after_inv cap (ops ++ pushes samples)) as Hinv'.
    rewrite (getHistory_live _ Hinv), (getValues_live _ Hinv).
    rewrite (getHistory_live _ Hinv'), (getValues_live _ Hinv'), (size_live _ Hinv').
    rewrite live_after_pushes. cbn [fst].
    rewrite !map_app, !map_map, length_app, length_map. done.
  - apply (H 4 [(100, 0); (101, 1000); (102, 2000); (103, 3000); (104, 4000)]%float).
Qed.

(** ** C5: the average *)

Lemma size_nonneg cap ops : 0 <= CircularDeque._size (TimeWindowDeque.data (after cap ops)).
Proof. rewrite (repr_size _ _ (after_inv cap ops)). lia. Qed.

(** C5.  [getAverage()] is [null] exactly when [size()] is 0, and on a
    non-empty buffer it is the quotient [getSum() / size()] as such. *)
Theorem getAverage_spec (cap : Z) (ops : list op) :
  (fst (TimeWindowDeque.getAverage (after cap ops)) = Normal None
   <-> fst (TimeWindowDeque.size (after cap ops)) = Normal 0)
  /\ exists (x : float) (n : Z),
       fst (TimeWindowDeque.getSum (after cap ops)) = Normal x
       /\ fst (TimeWindowDeque.size (after cap ops)) = Normal n
       /\ (n <> 0 ->
           fst (TimeWindowDeque.getAverage (after cap ops))
           = Normal (Some (x / number_of_Z n)%float)).
Proof.
  pose proof (size_nonneg cap ops) as Hsz.
  rewrite getAverage_exec, size_exec, getSum_exec. cbn [fst].
  split.
  - destruct (Z.ltb_spec 0 (CircularDeque._size (TimeWindowDeque.data (after cap ops)))) as [Hpos|Hle].
    + split; [discriminate|]. intros [= H]. lia.
    + split; [intros _; f_equal; lia|done].
  - eexists _, _. split; [reflexivity|]. split; [reflexivity|]. intros Hn.
    destruct (Z.ltb_spec 0 (CircularDeque._size (TimeWindowDeque.data (after cap ops)))); [done|lia].
Qed.

(** ** C6: expire twice *)

Lemma expire_loop_total c :
  forall fuel s,
    (Z.to_nat (CircularDeque._size (TimeWindowDeque.data s)) < fuel)%nat ->
    exists s', TimeWindowDeque.expire_loop fuel c s = (Normal tt, s') /\ at_rest c s'.
Proof.
  induction fuel as [|fuel IH]; intros s Hfuel; [lia|].
  rewrite expire_loop_S. unfold at_rest.
  destruct (Z.ltb_spec 0 (CircularDeque._size (TimeWindowDeque.data s))) as [Hpos|Hle].
  2:{ exists s. split; [done|]. by left. }
  destruct (arr_get _ _) as [f|] eqn:Hget.
  2:{ exists s. split; [done|]. right. by rewrite Hget. }
  destruct (c <=? timestamp f)%float eqn:Hle.
  { exists s. split; [done|]. right. by rewrite Hget. }
  apply IH. cbn. lia.
Qed.

Lemma expire_total c s :
  exists s', TimeWindowDeque.expire c s = (Normal tt, s') /\ at_rest c s'.
Proof. unfold TimeWindowDeque.expire. apply expire_loop_total. lia. Qed.

Lemma expire_at_rest c s : at_rest c s -> TimeWindowDeque.expire c s = (Normal tt, s).
Proof.
  intros Hrest. unfold TimeWindowDeque.expire. rewrite expire_loop_S.
  destruct (Z.ltb_spec 0 (CircularDeque._size (TimeWindowDeque.data s))) as [Hpos|Hle]; [|done].
  destruct Hrest as [|Hrest]; [lia|].
  destruct (arr_get _ _) as [f|]; [|done]. by rewrite Hrest.
Qed.

Lemma at_rest_le c c' s : (c' <=? c)%float = true -> at_rest c s -> at_rest c' s.
Proof.
  intros Hle [Hsz|Hrest]; [by left|right].
  destruct (arr_get _ _) as [f|]; [|done]. eapply leb_trans; eassumption.
Qed.

(** C6 (idempotence).  On every buffer state, [expire(c)] returns, and an
    [expire(c')] right after it changes nothing when [c'] is [c] itself or
    [c' <= c]. *)
Theorem expire_idempotent (s : TimeWindowDeque.t) (c c' : float) :
  c' = c \/ (c' <=? c)%float = true ->
  fst (TimeWindowDeque.expire c s) = Normal tt
  /\ TimeWindowDeque.expire c' (snd (TimeWindowDeque.expire c s))
     = (Normal tt, snd (TimeWindowDeque.expire c s)).
Proof.
  intros Hc. destruct (expire_total c s) as (s' & Hrun & Hrest).
  rewrite Hrun. cbn [fst snd]. split; [done|].
  apply expire_at_rest. destruct Hc as [->|Hle]; [done|]. by apply (at_rest_le c).
Qed.

Lemma expire_idempotent_witness :
  (20000 <=? 30000)%float = true
  /\ TimeWindowDeque.expire 20000
       (snd (TimeWindowDeque.expire 30000 (after 4 [Push 100 0; Push 101 30000; Push 102 60000])))
     = (Normal tt,
        snd (TimeWindowDeque.expire 30000 (after 4 [Push 100 0; Push 101 30000; Push 102 60000]))).
Proof.
  split; [reflexivity|].
  apply (expire_idempotent (after 4 [Push 100 0; Push 101 30000; Push 102 60000]) 30000 20000).
  right. reflexivity.
Defined.

(** ** C7: non-finite input *)

(** C7 as stated fails: [push(NaN, 0)] on a new buffer returns normally. *)
Lemma push_accepts_nan :
  ~ (forall v t s, non_finite v \/ non_finite t -> rejects v t s).
Proof.
  intros H. destruct (H nan 0%float (TimeWindowDeque.constructor 4)) as [e He].
  { left. reflexivity. }
  vm_compute in He. discriminate.
Qed.

Example push_nan_corrupts_sum :
  fst (TimeWindowDeque.getSum (after 4 [Push 100 0; Push nan 1000; Push 101 2000; Expire 1500]))
  = Normal nan.
Proof. vm_compute. reflexivity. Qed.

(** C7, as amended.  [push] validates nothing: for every value and
    timestamp, finite or not, it returns normally, appends the sample to the
    live ones and adds the value to the running sum (so a NaN or an infinity
    enters [getSum()]); the expired history is untouched. *)
Theorem push_always_succeeds (cap : Z) (ops : list op) (v t : float) :
  fst (TimeWindowDeque.push v t (after cap ops)) = Normal tt
  /\ live (snd (TimeWindowDeque.push v t (after cap ops)))
     = live (after cap ops) ++ [mkPriceData v t]
  /\ TimeWindowDeque.sum (snd (TimeWindowDeque.push v t (after cap ops)))
     = (TimeWindowDeque.sum (after cap ops) + v)%float
  /\ TimeWindowDeque.expiredData (snd (TimeWindowDeque.push v t (after cap ops)))
     = TimeWindowDeque.expiredData (after cap ops).
Proof.
  destruct (push_spec v t _ (after_inv cap ops)) as (s' & Hrun & _ & Hl & Hs & He).
  rewrite Hrun. done.
Qed.

(** ** C8: queries on an empty buffer *)

Lemma step_pristine o s :
  inv s -> pristine_sum s -> pristine_sum (snd (step o s)).
Proof.
  intros Hinv Hp. destruct o as [p ts|c]; cbn [step].
  - destruct (push_spec p ts s Hinv) as (s' & Hrun & _ & Hl & _).
    rewrite Hrun. cbn [snd]. intros Hnil. rewrite Hl in Hnil.
    by destruct (live s).
  - destruct (expire_spec c s Hinv) as (s' & Hrun & _ & Hl & He & Hs).
    rewrite Hrun. cbn [snd]. intros Hnil Hex. rewrite He in Hex.
    apply app_eq_nil in Hex as [Hex Htake].
    rewrite Hs, Htake. cbn. apply Hp; [|done].
    rewrite <- (take_drop_while (stale c) (live s)), Htake, <- Hl, Hnil. done.
Qed.

Lemma after_pristine cap ops : pristine_sum (after cap ops).
Proof.
  induction ops as [|o ops IH] using rev_ind.
  - intros _ _. reflexivity.
  - rewrite after_snoc. apply step_pristine; [apply after_inv|exact IH].
Qed.

(** C8.  On a buffer with no live sample and no expired sample,
    [getLatestPrice()] and [getAverage()] are [null], [getSum()] is 0, and
    [getHistory()], [getValues()] and [getExpiredValues()] are empty. *)
Theorem empty_buffer_queries (cap : Z) (ops : list op) :
  live (after cap ops) = [] ->
  TimeWindowDeque.expiredData (after cap ops) = [] ->
  fst (TimeWindowDeque.getLatestPrice (after cap ops)) = Normal None
  /\ fst (TimeWindowDeque.getAverage (after cap ops)) = Normal None
  /\ fst (TimeWindowDeque.getSum (after cap ops)) = Normal 0%float
  /\ fst (TimeWindowDeque.getHistory (after cap ops)) = Normal []
  /\ fst (TimeWindowDeque.getValues (after cap ops)) = Normal []
  /\ fst (TimeWindowDeque.getExpiredValues (after cap ops)) = Normal [].
Proof.
  intros Hl He. pose proof (after_inv cap ops) as Hinv.
  rewrite (getLatestPrice_live _ Hinv), getAverage_exec, getSum_exec,
    (getHistory_live _ Hinv), (getValues_live _ Hinv), getExpiredValues_exec.
  rewrite (repr_size _ _ Hinv), Hl, He, (after_pristine cap ops Hl He).
  cbn. done.
Qed.

Lemma empty_buffer_queries_witness :
  live (after 4 [Expire 5]) = []
  /\ TimeWindowDeque.expiredData (after 4 [Expire 5]) = []
  /\ fst (TimeWindowDeque.getLatestPrice (after 4 [Expire 5])) = Normal None
  /\ fst (TimeWindowDeque.getAverage (after 4 [Expire 5])) = Normal None
  /\ fst (TimeWindowDeque.getSum (after 4 [Expire 5])) = Normal 0%float
  /\ fst (TimeWindowDeque.getHistory (after 4 [Expire 5])) = Normal []
  /\ fst (TimeWindowDeque.getValues (after 4 [Expire 5])) = Normal []
  /\ fst (TimeWindowDeque.getExpiredValues (after 4 [Expire 5])) = Normal [].
Proof.
  split; [reflexivity|]. split; [reflexivity|].
  apply (empty_buffer_queries 4 [Expire 5]); reflexivity.
Defined.

(** ** C9: queries write nothing *)

Lemma arr_map_get_price_state {S} (l : list (option PriceData)) (s : S) :
  snd (arr_map get_price l s) = s.
Proof.
  induction l as [|[x|] l IH]; cbn [arr_map get_price]; [done| |done].
  unfold bind at 1. cbn [ret]. unfold bind at 1.
  destruct (arr_map get_price l s) as [[ys| |] s'] eqn:E; cbn in IH |- *; congruence.
Qed.

Lemma getLatestPrice_state s : snd (TimeWindowDeque.getLatestPrice s) = s.
Proof.
  unfold TimeWindowDeque.getLatestPrice, bind, TimeWindowDeque.on_data.
  rewrite peekLast_exec. by destruct s.
Qed.

Lemma getValues_state s : snd (TimeWindowDeque.getValues s) = s.
Proof.
  unfold TimeWindowDeque.getValues, bind. fold TimeWindowDeque.getHistory.
  rewrite getHistory_exec. apply arr_map_get_price_state.
Qed.

Lemma run_query_state q s : snd (run_query q s) = s.
Proof.
  destruct q; cbn [run_query]; unfold bind.
  - by rewrite size_exec.
  - by rewrite getSum_exec.
  - pose proof (getLatestPrice_state s) as H.
    by destruct (TimeWindowDeque.getLatestPrice s) as [[x| |] s'].
  - by rewrite getAverage_exec.
  - by rewrite getHistory_exec.
  - pose proof (getValues_state s) as H.
    by destruct (TimeWindowDeque.getValues s) as [[x| |] s'].
  - by rewrite getExpiredValues_exec.
Qed.

Lemma run_query_normal q s : inv s -> exists r, fst (run_query q s) = Normal r.
Proof.
  intros Hinv. destruct q; cbn [run_query]; unfold bind.
  - rewrite size_exec. eauto.
  - rewrite getSum_exec. eauto.
  - rewrite (getLatestPrice_live _ Hinv). eauto.
  - rewrite getAverage_exec. eauto.
  - rewrite getHistory_exec. eauto.
  - rewrite (getValues_live _ Hinv). eauto.
  - rewrite getExpiredValues_exec. eauto.
Qed.

(** C9 (query purity).  Each of the seven queries leaves every buffer
    state as it was; and on a buffer reached by pushes and expires, a query
    followed by any computation gives what that computation gives alone. *)
Theorem queries_are_pure :
  (forall (q : query) (s : TimeWindowDeque.t), snd (run_query q s) = s)
  /\ (forall (q : query) (cap : Z) (ops : list op) (A : Type) (m : M TimeWindowDeque.t A),
        (run_query q ;; m) (after cap ops) = m (after cap ops)).
Proof.
  split; [exact run_query_state|].
  intros q cap ops A m. unfold bind.
  destruct (run_query_normal q _ (after_inv cap ops)) as [r Hr].
  pose proof (run_query_state q (after cap ops)) as Hs.
  destruct (run_query q (after cap ops)) as [c s']. cbn in Hr, Hs. by subst.
Qed.

(** * Further properties of the code *)

Module RingFacts.
Import CircularDeque.

Section Facts.
Context {T : Type}.
Implicit Types (d : t T) (q : list T).

Ltac ring_cases :=
  repeat match goal with
  | |- context [Z.rem ?x ?c] =>
      lazymatch x with
      | context [Z.rem _ _] => fail
      | _ => rewrite (rem_wrap x c) by lia; destruct (Z.ltb_spec x c)
      end
  | H : context [Z.rem ?x ?c] |- _ =>
      lazymatch x with
      | context [Z.rem _ _] => fail
      | _ => rewrite (rem_wrap x c) in H by lia; destruct (Z.ltb_spec x c)
      end
  end.

Lemma arr_get_replicate_None (n : nat) (j : Z) :
  arr_get (replicate n (@None T)) j = None.
Proof.
  unfold arr_get. destruct (j <? 0); [done|].
  destruct (replicate n None !! Z.to_nat j) as [x|] eqn:E; [|done].
  apply lookup_replicate in E as [-> _]. done.
Qed.

Lemma constructor_vacated c : vacated (constructor (T:=T) c).
Proof. intros j _. apply arr_get_replicate_None. Qed.

Lemma push_slot_vacated v d :
  wf d -> _size d < capacity d -> vacated d -> vacated (push_slot v d).
Proof.
  intros [Hc Hl Hh Hs Ht] Hlt Hv j Hj. cbn.
  assert (0 <= tail d < capacity d) by (rewrite Ht; ring_cases; lia).
  assert (j <> tail d).
  { intros ->. apply Hj. exists (_size d). cbn. split; [lia|]. exact Ht. }
  rewrite arr_get_set_ne by lia. apply Hv. intros (i & Hi & ->).
  apply Hj. exists i. cbn. split; [lia|done].
Qed.

Lemma elems_lookup d (j : Z) :
  0 <= j < _size d ->
  arr_get (elems d) j = arr_get (buffer d) (Z.rem (head d + j) (capacity d)).
Proof.
  intros Hj. unfold arr_get at 1. destruct (Z.ltb_spec j 0); [lia|].
  unfold elems. change (map ?f ?l) with (f <$> l). rewrite list_lookup_fmap.
  rewrite lookup_seqZ_lt by lia. cbn. do 2 f_equal. lia.
Qed.

Lemma grown_vacated d : wf d -> _size d = capacity d -> vacated (grown d).
Proof.
  intros Hwf Hfull j Hj. pose proof Hwf as [Hc Hl Hh Hs Ht].
  pose proof (elems_length d ltac:(lia)) as Hel. cbn.
  unfold arr_get. destruct (Z.ltb_spec j 0); [done|].
  destruct (decide (j < _size d)) as [Hlt|Hge].
  - exfalso. apply Hj. exists j. cbn. split; [lia|]. ring_cases; lia.
  - rewrite lookup_app_r by lia.
    destruct (replicate _ None !! _) as [x|] eqn:E; [|done].
    apply lookup_replicate in E as [-> _]. done.
Qed.

Lemma shifted_vacated d :
  wf d -> 0 < _size d -> vacated d -> vacated (shifted d).
Proof.
  intros [Hc Hl Hh Hs Ht] Hpos Hv j Hj. cbn.
  destruct (decide (j = head d)) as [->|Hne].
  - apply arr_get_set_eq. lia.
  - rewrite arr_get_set_ne by lia. apply Hv. intros (i & Hi & ->).
    destruct (decide (i = 0)) as [->|Hi0].
    + apply Hne. ring_cases; lia.
    + apply Hj. exists (i - 1). cbn. split; [lia|]. ring_cases; lia.
Qed.

Lemma push_ring_inv c0 v d q :
  ring_inv c0 d q ->
  exists d', push v d = (Normal tt, d') /\ ring_inv c0 d' (q ++ [v])
             /\ capacity d' = (if _size d =? capacity d then capacity d * 2 else capacity d).
Proof.
  intros ([Hwf Hel] & Hv & k & Hk). eexists. split; [apply push_exec; done|].
  destruct (Z.eqb_spec (_size d) (capacity d)) as [Hfull|Hne].
  - pose proof (grown_wf d Hwf Hfull) as Hwf'.
    assert (_size (grown d) < capacity (grown d)) by (destruct Hwf; cbn; lia).
    split; [|done]. split; [|split].
    + split; [by apply push_slot_wf|].
      rewrite push_slot_elems, grown_elems, Hel, map_app by done. reflexivity.
    + apply push_slot_vacated; [done|done|by apply grown_vacated].
    + exists (S k). cbn [push_slot grown capacity]. rewrite Hk, Nat2Z.inj_succ, Z.pow_succ_r by lia. lia.
  - assert (_size d < capacity d) by (destruct Hwf; lia).
    split; [|done]. split; [|split].
    + split; [by apply push_slot_wf|].
      rewrite push_slot_elems, Hel, map_app by done. reflexivity.
    + by apply push_slot_vacated.
    + exists k. exact Hk.
Qed.

Lemma shift_ring_inv c0 d q :
  ring_inv c0 d q ->
  exists d', shift d = (Normal (hd_error q), d') /\ ring_inv c0 d' (tl q)
             /\ capacity d' = capacity d.
Proof.
  intros (Hr & Hv & k & Hk). destruct q as [|x q].
  - exists d. rewrite shift_exec, (repr_size _ _ Hr). cbn.
    split; [done|]. split; [|done]. split; [exact Hr|]. split; [exact Hv|]. eauto.
  - exists (shifted d). rewrite (shift_cons d x q Hr). cbn [hd_error tl].
    pose proof (repr_size _ _ Hr) as Hsz. cbn [length] in Hsz.
    split; [done|]. split; [|done]. split; [by apply (shifted_repr d x)|].
    split; [apply shifted_vacated; [apply Hr|lia|done]|]. exists k. exact Hk.
Qed.

Lemma live_slot_dec d (j : Z) : wf d -> live_slot d j \/ ~ live_slot d j.
Proof.
  intros [Hc Hl Hh Hs Ht].
  destruct (decide (0 <= j < capacity d)) as [Hj|Hj].
  2:{ right. intros (i & Hi & ->). apply Hj. ring_cases; lia. }
  destruct (decide (head d <= j)) as [Hge|Hlt].
  - destruct (decide (j - head d < _size d)) as [Hin|Hout].
    + left. exists (j - head d). split; [lia|]. ring_cases; lia.
    + right. intros (i & Hi & Hji). ring_cases; lia.
  - destruct (decide (j - head d + capacity d < _size d)) as [Hin|Hout].
    + left. exists (j - head d + capacity d). split; [lia|]. ring_cases; lia.
    + right. intros (i & Hi & Hji). ring_cases; lia.
Qed.

Lemma live_slot_defined d q (j : Z) :
  repr d q -> live_slot d j -> is_Some (arr_get (buffer d) j).
Proof.
  intros Hr (i & Hi & ->). pose proof (repr_size _ _ Hr) as Hsz. destruct Hr as [Hwf Hel].
  rewrite <- elems_lookup by done. rewrite Hel. unfold arr_get.
  destruct (Z.ltb_spec i 0); [lia|].
  change (map ?f ?l) with (f <$> l). rewrite list_lookup_fmap.
  destruct (lookup_lt_is_Some_2 q (Z.to_nat i)) as [x Hx]; [lia|].
  rewrite Hx. cbn. eauto.
Qed.

Lemma constructor_ring_inv c0 : ring_inv c0 (constructor (T:=T) c0) [].
Proof.
  split; [apply constructor_repr|]. split; [apply constructor_vacated|].
  exists 0%nat. cbn. lia.
Qed.

Lemma deque_run_inv c0 (ops : list (deque_op T)) :
  forall d q, ring_inv c0 d q ->
  exists d', deque_run ops d = (Normal (fst (queue_run ops q)), d')
             /\ ring_inv c0 d' (snd (queue_run ops q))
             /\ capacity d <= capacity d'.
Proof.
  induction ops as [|[v|] ops IH]; intros d q Hinv.
  - exists d. cbn. split; [done|]. split; [done|lia].
  - destruct (push_ring_inv c0 v d q Hinv) as (d1 & Hpush & Hinv1 & Hcap).
    destruct (IH d1 _ Hinv1) as (d' & Hrun & Hinv' & Hle).
    exists d'. cbn [deque_run queue_run]. unfold bind. rewrite Hpush.
    split; [exact Hrun|]. split; [exact Hinv'|].
    destruct Hinv as ([[Hc _ _ _ _] _] & _). destruct (_ =? _); lia.
  - destruct (shift_ring_inv c0 d q Hinv) as (d1 & Hshift & Hinv1 & Hcap).
    destruct (IH d1 _ Hinv1) as (d' & Hrun & Hinv' & Hle).
    exists d'. cbn [deque_run queue_run fst snd]. unfold bind. rewrite Hshift.
    unfold bind. rewrite Hrun. cbn [ret]. split; [done|]. split; [exact Hinv'|lia].
Qed.

Lemma deque_after_inv c0 (ops : list (deque_op T)) :
  deque_run ops (constructor c0) = (Normal (fst (queue_run ops [])), deque_after c0 ops)
  /\ ring_inv c0 (deque_after c0 ops) (snd (queue_run ops [])).
Proof.
  destruct (deque_run_inv c0 ops _ _ (constructor_ring_inv c0)) as (d' & Hrun & Hinv & _).
  unfold deque_after. rewrite Hrun. done.
Qed.

Lemma deque_run_app (ops1 ops2 : list (deque_op T)) :
  forall d rs1 d1,
    deque_run ops1 d = (Normal rs1, d1) ->
    snd (deque_run (ops1 ++ ops2) d) = snd (deque_run ops2 d1).
Proof.
  induction ops1 as [|[v|] ops1 IH]; intros d rs1 d1 Hrun; cbn [app deque_run] in *.
  - by injection Hrun as _ ->.
  - unfold bind in *. destruct (push v d) as [[[]| |] d2]; [|done|done]. by apply (IH _ rs1).
  - unfold bind in *. destruct (shift d) as [[r| |] d2]; [|done|done].
    destruct (deque_run ops1 d2) as [[rs| |] d3] eqn:E; [|done|done].
    injection Hrun as _ <-. specialize (IH _ _ _ E). rewrite <- IH.
    by destruct (deque_run (ops1 ++ ops2) d2) as [[rs'| |] d4].
Qed.

Lemma deque_after_app c0 (ops1 ops2 : list (deque_op T)) :
  deque_after c0 (ops1 ++ ops2) = snd (deque_run ops2 (deque_after c0 ops1)).
Proof.
  destruct (deque_after_inv c0 ops1) as [Hrun _].
  unfold deque_after at 1. by rewrite (deque_run_app ops1 ops2 _ _ _ Hrun).
Qed.

End Facts.
End RingFacts.
Import RingFacts.

(** X1.  [CircularDeque] is a first-in first-out queue.  For every initial
    capacity and every sequence of [push] and [shift] calls on a new ring,
    each [shift] returns what the same call returns on a plain list queue
    ([undefined] on an empty one), and afterwards [toArray], [size],
    [peekFirst] and [peekLast] give the queue's content, its length, its
    first and its last element: wrap-around and growth never reorder, lose
    or duplicate an element. *)
Theorem circular_deque_is_fifo (T : Type) (cap : Z) (ops : list (deque_op T)) :
  let d := deque_after cap ops in
  let q := snd (queue_run ops []) in
  deque_run ops (CircularDeque.constructor cap) = (Normal (fst (queue_run ops [])), d)
  /\ CircularDeque.toArray d = (Normal (map Some q), d)
  /\ CircularDeque.size d = (Normal (Z.of_nat (length q)), d)
  /\ CircularDeque.peekFirst d = (Normal (hd_error q), d)
  /\ CircularDeque.peekLast d = (Normal (last q), d).
Proof.
  cbn zeta. destruct (deque_after_inv cap ops) as (Hrun & Hr & _).
  split; [exact Hrun|]. rewrite toArray_elems.
  split; [by destruct Hr as [_ ->]|].
  split; [unfold CircularDeque.size, gets; by rewrite (repr_size _ _ Hr)|].
  split; [by apply peekFirst_repr|by apply peekLast_repr].
Qed.

(** X2.  [shift] clears the slot it frees ("Clear the reference").  After
    any sequence of [push] and [shift] calls the buffer has exactly
    [capacity] slots, and a slot holds an element if and only if it is one
    of the [_size] slots from [head] on: every other slot is [undefined],
    so the ring keeps no reference to a removed element. *)
Theorem removed_slots_are_cleared (T : Type) (cap : Z) (ops : list (deque_op T)) (j : Z) :
  let d := deque_after cap ops in
  Z.of_nat (length (CircularDeque.buffer d)) = CircularDeque.capacity d
  /\ (is_Some (arr_get (CircularDeque.buffer d) j) <-> live_slot d j).
Proof.
  cbn zeta. destruct (deque_after_inv cap ops) as (_ & Hr & Hv & _).
  split; [apply Hr|]. split.
  - intros Hsome. destruct (live_slot_dec (deque_after cap ops) j) as [|Hn]; [apply Hr|done|].
    rewrite (Hv j Hn) in Hsome. by destruct Hsome.
  - by apply (live_slot_defined _ (snd (queue_run ops []))).
Qed.

(** X3.  The capacity of the ring is [max(1, capacity)] times a power of
    two, [_size] stays between 0 and the capacity, and no later call makes
    the capacity smaller. *)
Theorem capacity_only_doubles (T : Type) (cap : Z) (ops ops' : list (deque_op T)) :
  let d := deque_after cap ops in
  (exists k : nat, CircularDeque.capacity d = Z.max 1 cap * 2 ^ Z.of_nat k)
  /\ 0 <= CircularDeque._size d <= CircularDeque.capacity d
  /\ CircularDeque.capacity d <= CircularDeque.capacity (deque_after cap (ops ++ ops')).
Proof.
  cbn zeta. destruct (deque_after_inv cap ops) as (_ & Hinv).
  split; [apply Hinv|]. split; [apply Hinv|].
  rewrite deque_after_app.
  destruct (deque_run_inv cap ops' _ _ Hinv) as (d' & Hrun & _ & Hle). by rewrite Hrun.
Qed.

(** X4.  Growth is bounded: after [n] pushes on a new ring, [_size] is [n],
    the capacity is at least [n], and it is either still the initial one or
    smaller than [2 n]. *)
Theorem growth_is_bounded (T : Type) (cap : Z) (values : list T) :
  let d := deque_after cap (map DPush values) in
  let n := Z.of_nat (length values) in
  CircularDeque._size d = n
  /\ n <= CircularDeque.capacity d
  /\ (CircularDeque.capacity d = Z.max 1 cap \/ CircularDeque.capacity d < 2 * n).
Proof.
  cbn zeta. induction values as [|v values IH] using rev_ind.
  - cbn. lia.
  - rewrite map_app, deque_after_app. cbn [map deque_run].
    destruct (deque_after_inv cap (map DPush values)) as (_ & Hinv).
    destruct (push_ring_inv cap v _ _ Hinv) as (d1 & Hpush & Hinv1 & Hcap).
    unfold bind. rewrite Hpush. cbn [ret snd].
    destruct Hinv1 as (Hr1 & _). pose proof (repr_size _ _ Hr1) as Hsz1.
    destruct Hinv as (Hr & _). pose proof (repr_size _ _ Hr) as Hsz.
    destruct IH as (IHs & IHn & IHc).
    assert (Hq : length (snd (queue_run (map DPush values) [])) = length values) by lia.
    rewrite length_app in *. cbn [length] in *.
    destruct Hr as [[Hc _ _ _ _] _].
    destruct (Z.eqb_spec (CircularDeque._size (deque_after cap (map DPush values)))
                         (CircularDeque.capacity (deque_after cap (map DPush values)))); lia.
Qed.

Lemma last_map {A B} (f : A -> B) (l : list A) : last (map f l) = f <$> last l.
Proof.
  induction l as [|x l IH] using rev_ind; [done|].
  rewrite map_app. cbn [map]. by rewrite !last_snoc.
Qed.

(** X5.  The queries of the circular [TimeWindowDeque] describe one list.
    After any sequence of [push] and [expire] calls there is a list [h] of
    samples such that [getHistory()] is [h], [getValues()] is the prices of
    [h], [size()] is the length of [getValues()], and [getLatestPrice()] is
    the last entry of [getValues()] ([null] when it is empty). *)
Theorem queries_are_consistent (cap : Z) (ops : list op) :
  exists h : list PriceData,
    fst (TimeWindowDeque.getHistory (after cap ops)) = Normal (map Some h)
    /\ fst (TimeWindowDeque.getValues (after cap ops)) = Normal (map price h)
    /\ fst (TimeWindowDeque.size (after cap ops)) = Normal (Z.of_nat (length (map price h)))
    /\ fst (TimeWindowDeque.getLatestPrice (after cap ops)) = Normal (last (map price h)).
Proof.
  pose proof (after_inv cap ops) as Hinv. exists (live (after cap ops)).
  rewrite (getHistory_live _ Hinv), (getValues_live _ Hinv), (size_live _ Hinv),
    (getLatestPrice_live _ Hinv), last_map, length_map. cbn [fst].
  repeat split.
Qed.

Lemma pushed_samples_snoc ops o :
  pushed_samples (ops ++ [o])
  = pushed_samples ops ++ match o with Push p ts => [mkPriceData p ts] | Expire _ => [] end.
Proof. unfold pushed_samples. rewrite omap_app. by destruct o. Qed.

Lemma after_conserves cap ops :
  TimeWindowDeque.expiredData (after cap ops) ++ live (after cap ops) = pushed_samples ops.
Proof.
  induction ops as [|o ops IH] using rev_ind.
  - cbn. apply repr_live, constructor_repr.
  - rewrite after_snoc, pushed_samples_snoc, <- IH.
    pose proof (after_inv cap ops) as Hinv. destruct o as [p ts|c]; cbn [step].
    + destruct (push_spec p ts _ Hinv) as (s' & Hrun & _ & Hl & _ & He).
      rewrite Hrun. cbn [snd]. by rewrite Hl, He, app_assoc.
    + destruct (expire_spec c _ Hinv) as (s' & Hrun & _ & Hl & He & _).
      rewrite Hrun. cbn [snd]. by rewrite Hl, He, <- app_assoc, take_drop_while, app_nil_r.
Qed.

(** X6.  No sample is lost, duplicated or reordered: after any sequence of
    [push] and [expire] calls, [getExpiredValues()] followed by
    [getHistory()] is exactly the list of pushed samples, in push order. *)
Theorem samples_are_conserved (cap : Z) (ops : list op) :
  exists e h : list PriceData,
    fst (TimeWindowDeque.getExpiredValues (after cap ops)) = Normal e
    /\ fst (TimeWindowDeque.getHistory (after cap ops)) = Normal (map Some h)
    /\ e ++ h = pushed_samples ops.
Proof.
  exists (TimeWindowDeque.expiredData (after cap ops)), (live (after cap ops)).
  rewrite (getHistory_live _ (after_inv cap ops)), getExpiredValues_exec.
  repeat split. apply after_conserves.
Qed.

Lemma Forall_take_while_true {A} (f : A -> bool) l : Forall (fun x => f x = true) (take_while f l).
Proof.
  induction l as [|x l IH]; simpl; [constructor|].
  destruct (f x) eqn:E; by constructor.
Qed.

Lemma drop_while_first {A} (f : A -> bool) l x l' : drop_while f l = x :: l' -> f x = false.
Proof.
  induction l as [|y l IH]; simpl; [done|].
  destruct (f y) eqn:E; [exact IH|]. intros [= <- _]. exact E.
Qed.

(** X7.  What [expire(cutoff)] does on every reachable buffer and for every
    cutoff, whether or not the timestamps are ordered and NaN included: it
    returns; it removes a prefix of the live samples, appends that prefix to
    the expired history and subtracts its prices from the running sum, one
    after the other; for every removed sample [timestamp >= cutoff] is
    false; and if a sample is left, [timestamp >= cutoff] holds for the
    first one. *)
Theorem expire_evicts_a_prefix (cap : Z) (ops : list op) (cutoff : float) :
  let s := after cap ops in
  let s' := snd (TimeWindowDeque.expire cutoff s) in
  fst (TimeWindowDeque.expire cutoff s) = Normal tt
  /\ exists evicted : list PriceData,
       live s = evicted ++ live s'
       /\ TimeWindowDeque.expiredData s' = TimeWindowDeque.expiredData s ++ evicted
       /\ TimeWindowDeque.sum s' = sub_prices (TimeWindowDeque.sum s) evicted
       /\ Forall (fun p => (cutoff <=? timestamp p)%float = false) evicted
       /\ head_in_window cutoff (live s').
Proof.
  cbn zeta. destruct (expire_spec cutoff _ (after_inv cap ops)) as (s' & Hrun & _ & Hl & He & Hs).
  rewrite Hrun. cbn [fst snd]. split; [done|].
  exists (take_while (stale cutoff) (live (after cap ops))).
  split; [by rewrite Hl, take_drop_while|]. split; [done|]. split; [done|]. split.
  - eapply Forall_impl; [apply Forall_take_while_true|]. intros p Hp.
    unfold stale in Hp. by apply negb_true_iff in Hp.
  - rewrite Hl. destruct (drop_while _ _) as [|x l] eqn:Hd; [done|].
    apply drop_while_first in Hd. unfold stale in Hd. by apply negb_false_iff in Hd.
Qed.

Lemma scan_sum_snoc l x : scan_sum (l ++ [x]) = (scan_sum l + price x)%float.
Proof. unfold scan_sum. by rewrite fold_left_app. Qed.

Lemma no_eviction_sum cap ops :
  TimeWindowDeque.expiredData (after cap ops) = [] ->
  TimeWindowDeque.sum (after cap ops) = scan_sum (live (after cap ops)).
Proof.
  induction ops as [|o ops IH] using rev_ind.
  - intros _. unfold after. cbn [run ret snd].
    assert (Hl : live (TimeWindowDeque.constructor cap) = []) by apply repr_live, constructor_repr.
    by rewrite Hl.
  - rewrite after_snoc. pose proof (after_inv cap ops) as Hinv.
    destruct o as [p ts|c]; cbn [step].
    + destruct (push_spec p ts _ Hinv) as (s' & Hrun & _ & Hl & Hs & He).
      rewrite Hrun. cbn [snd]. rewrite He, Hl, Hs, scan_sum_snoc. intros H. by rewrite IH.
    + destruct (expire_spec c _ Hinv) as (s' & Hrun & _ & Hl & He & Hs).
      rewrite Hrun. cbn [snd]. rewrite He, Hl, Hs. intros H.
      apply app_eq_nil in H as [H Ht]. rewrite Ht. cbn.
      rewrite IH by done. f_equal.
      rewrite <- (take_drop_while (stale c) (live (after cap ops))) at 1. by rewrite Ht.
Qed.

(** X8.  As long as nothing has been evicted ([getExpiredValues()] is
    empty), [getSum()] is exactly the left-to-right sum of the live prices,
    for arbitrary doubles: rounding can make the two differ only after an
    eviction. *)
Theorem sum_exact_before_eviction (cap : Z) (ops : list op) :
  fst (TimeWindowDeque.getExpiredValues (after cap ops)) = Normal [] ->
  sum_invariant (after cap ops).
Proof.
  rewrite getExpiredValues_exec. cbn [fst]. intros [= He].
  unfold sum_invariant. rewrite getSum_exec. cbn [fst]. f_equal. by apply no_eviction_sum.
Qed.

Lemma sum_exact_before_eviction_witness :
  fst (TimeWindowDeque.getExpiredValues (after 2 [Push 0.1 5; Push 0.2 6; Expire 3; Push 0.3 7]))
  = Normal []
  /\ sum_invariant (after 2 [Push 0.1 5; Push 0.2 6; Expire 3; Push 0.3 7]).
Proof.
  split; [reflexivity|].
  apply (sum_exact_before_eviction 2 [Push 0.1 5; Push 0.2 6; Expire 3; Push 0.3 7]).
  reflexivity.
Defined.

Lemma after_app_snoc cap ops ops' o :
  after cap (ops ++ ops' ++ [o]) = snd (step o (after cap (ops ++ ops'))).
Proof. rewrite app_assoc. apply after_snoc. Qed.

(** X9.  The expired history only grows: what [getExpiredValues()] holds
    after some calls is a prefix of what it holds after any further [push]
    and [expire] calls. *)
Theorem expired_history_only_grows (cap : Z) (ops ops' : list op) :
  exists more : list PriceData,
    TimeWindowDeque.expiredData (after cap (ops ++ ops'))
    = TimeWindowDeque.expiredData (after cap ops) ++ more.
Proof.
  induction ops' as [|o ops' IH] using rev_ind.
  - exists []. by rewrite !app_nil_r.
  - destruct IH as [more IH]. rewrite after_app_snoc.
    pose proof (after_inv cap (ops ++ ops')) as Hinv. destruct o as [p ts|c]; cbn [step].
    + destruct (push_spec p ts _ Hinv) as (s' & Hrun & _ & _ & _ & He).
      rewrite Hrun. cbn [snd]. exists more. by rewrite He.
    + destruct (expire_spec c _ Hinv) as (s' & Hrun & _ & _ & He & _).
      rewrite Hrun. cbn [snd]. eexists. by rewrite He, IH, <- app_assoc.
Qed.

Lemma shifted_ring_inv {T} c0 (d : CircularDeque.t T) x q :
  ring_inv c0 d (x :: q) -> ring_inv c0 (shifted d) q.
Proof.
  intros Hinv. destruct (shift_ring_inv c0 d _ Hinv) as (d' & Hshift & Hinv' & _).
  destruct Hinv as (Hr & _). rewrite (shift_cons d x q Hr) in Hshift.
  by injection Hshift as <-.
Qed.

Lemma ring_content {T} c0 (d : CircularDeque.t T) q : ring_inv c0 d q -> omap id (elems d) = q.
Proof. intros ([_ Hel] & _). rewrite Hel. apply omap_id_Some. Qed.

Lemma live_ring s q c0 : ring_inv c0 (TimeWindowDeque.data s) q -> live s = q.
Proof. intros (Hr & _). by apply repr_live. Qed.

Lemma push_buffer_inv p ts s :
  buffer_inv s ->
  buffer_inv (snd (TimeWindowDeque.push p ts s))
  /\ TimeWindowDeque.capacity (snd (TimeWindowDeque.push p ts s)) = TimeWindowDeque.capacity s.
Proof.
  intros Hinv. unfold buffer_inv in *.
  destruct (push_ring_inv _ (mkPriceData p ts) _ _ Hinv) as (d' & Hpush & Hinv' & _).
  unfold TimeWindowDeque.push, bind. rewrite (on_data_exec _ _ _ _ Hpush).
  cbn [modify snd TimeWindowDeque.set_sum TimeWindowDeque.set_data TimeWindowDeque.data
       TimeWindowDeque.capacity].
  split; [|done]. unfold live.
  change (TimeWindowDeque.data (TimeWindowDeque.set_sum _ (TimeWindowDeque.set_data d' s))) with d'.
  rewrite (ring_content _ _ _ Hinv'). exact Hinv'.
Qed.

Lemma expire_loop_buffer_inv c l :
  forall fuel s,
    ring_inv (TimeWindowDeque.capacity s) (TimeWindowDeque.data s) l -> (length l < fuel)%nat ->
    buffer_inv (snd (TimeWindowDeque.expire_loop fuel c s))
    /\ TimeWindowDeque.capacity (snd (TimeWindowDeque.expire_loop fuel c s))
       = TimeWindowDeque.capacity s.
Proof.
  induction l as [|x l IH]; intros fuel s Hinv Hfuel;
    (destruct fuel as [|fuel]; [simpl in Hfuel; lia|]);
    rewrite expire_loop_S; pose proof Hinv as (Hr & _);
    pose proof (repr_size _ _ Hr) as Hsz; simpl length in Hsz.
  - destruct (Z.ltb_spec 0 (CircularDeque._size (TimeWindowDeque.data s))); [lia|].
    cbn. split; [|done]. unfold buffer_inv. by rewrite (live_ring _ _ _ Hinv).
  - destruct (Z.ltb_spec 0 (CircularDeque._size (TimeWindowDeque.data s))); [|lia].
    rewrite (repr_head _ _ _ Hr).
    destruct (c <=? timestamp x)%float.
    + cbn. split; [|done]. unfold buffer_inv. by rewrite (live_ring _ _ _ Hinv).
    + destruct (IH fuel (evict_first x s)) as [H1 H2].
      { cbn. by apply (shifted_ring_inv _ _ x). }
      { simpl in Hfuel. lia. }
      split; [exact H1|]. rewrite H2. reflexivity.
Qed.

Lemma expire_buffer_inv c s :
  buffer_inv s ->
  buffer_inv (snd (TimeWindowDeque.expire c s))
  /\ TimeWindowDeque.capacity (snd (TimeWindowDeque.expire c s)) = TimeWindowDeque.capacity s.
Proof.
  intros Hinv. unfold TimeWindowDeque.expire. apply (expire_loop_buffer_inv c (live s)); [exact Hinv|].
  destruct Hinv as (Hr & _). rewrite (repr_size _ _ Hr). lia.
Qed.

Lemma constructor_buffer_inv cap : buffer_inv (TimeWindowDeque.constructor cap).
Proof.
  unfold buffer_inv. cbn [TimeWindowDeque.constructor TimeWindowDeque.capacity TimeWindowDeque.data].
  assert (Hl : live (TimeWindowDeque.constructor cap) = []) by apply repr_live, constructor_repr.
  rewrite Hl. apply constructor_ring_inv.
Qed.

Lemma after_buffer_inv cap ops :
  buffer_inv (after cap ops) /\ TimeWindowDeque.capacity (after cap ops) = Z.max 1 cap.
Proof.
  induction ops as [|o ops [IH1 IH2]] using rev_ind.
  - split; [apply constructor_buffer_inv|done].
  - rewrite after_snoc. destruct o as [p ts|c]; cbn [step].
    + destruct (push_buffer_inv p ts _ IH1) as [H1 H2]. split; [done|congruence].
    + destruct (expire_buffer_inv c _ IH1) as [H1 H2]. split; [done|congruence].
Qed.

(** X10.  The field [capacity] of the circular [TimeWindowDeque] is
    [max(1, initialCapacity)] for ever, also after the ring has grown; the
    ring's own capacity is that number times a power of two and is at least
    the number of live samples. *)
Theorem capacity_field_is_initial (cap : Z) (ops : list op) :
  let s := after cap ops in
  TimeWindowDeque.capacity s = Z.max 1 cap
  /\ (exists k : nat,
        CircularDeque.capacity (TimeWindowDeque.data s) = Z.max 1 cap * 2 ^ Z.of_nat k)
  /\ Z.of_nat (length (live s)) <= CircularDeque.capacity (TimeWindowDeque.data s).
Proof.
  cbn zeta. destruct (after_buffer_inv cap ops) as [(Hr & _ & k & Hk) Hcap].
  split; [exact Hcap|]. split.
  - exists k. rewrite Hk, Hcap. lia.
  - rewrite <- (repr_size _ _ Hr). apply Hr.
Qed.

Lemma SFltb_not_nan x y : SFltb x y = true -> x <> S754_nan /\ y <> S754_nan.
Proof. unfold SFltb, SFcompare. destruct x, y; try discriminate; split; discriminate. Qed.

Lemma ltb_leb_trans (a b c : float) :
  (a <? b)%float = true -> (b <=? c)%float = true -> (a <? c)%float = true.
Proof.
  rewrite !ltb_spec, leb_spec. intros Hab Hbc.
  destruct (SFltb_not_nan _ _ Hab) as [Ha Hb]. destruct (SFleb_nan_l _ _ Hbc) as [_ Hc].
  apply SFltb_key in Hab; try assumption. apply SFleb_key in Hbc; try assumption.
  apply SFltb_key; try assumption.
  unfold key_le, key_lt in *.
  destruct (sf_key (Prim2SF a)) as [[? ?] ?], (sf_key (Prim2SF b)) as [[? ?] ?],
    (sf_key (Prim2SF c)) as [[? ?] ?]. lia.
Qed.

(** X11.  The array version's [expire(cutoff)], on every state and for every
    cutoff: it returns; it removes a prefix of [data], appends it to
    [expiredData] and subtracts its prices from [sum] one after the other;
    every removed sample has [timestamp < cutoff]; and if a sample is left,
    [timestamp < cutoff] is false for the first one. *)
Theorem array_expire_evicts_a_prefix (a : ArrayImpl.t) (cutoff : float) :
  let a' := snd (ArrayImpl.expire cutoff a) in
  fst (ArrayImpl.expire cutoff a) = Normal tt
  /\ exists evicted : list PriceData,
       ArrayImpl.data a = evicted ++ ArrayImpl.data a'
       /\ ArrayImpl.expiredData a' = ArrayImpl.expiredData a ++ evicted
       /\ ArrayImpl.sum a' = sub_prices (ArrayImpl.sum a) evicted
       /\ Forall (fun p => (timestamp p <? cutoff)%float = true) evicted
       /\ array_head_in_window cutoff (ArrayImpl.data a').
Proof.
  cbn zeta. rewrite array_expire_exec. cbn [fst snd ArrayImpl.data ArrayImpl.sum ArrayImpl.expiredData].
  split; [done|]. exists (take_while (array_stale cutoff) (ArrayImpl.data a)).
  split; [by rewrite take_drop_while|]. split; [done|]. split; [done|]. split.
  - apply Forall_take_while_true.
  - destruct (drop_while _ _) as [|x l] eqn:Hd; [done|].
    by apply drop_while_first in Hd.
Qed.

Lemma array_expire_at_rest c a :
  array_head_in_window c (ArrayImpl.data a) -> ArrayImpl.expire c a = (Normal tt, a).
Proof.
  intros Hw. rewrite array_expire_exec. destruct a as [[|x l] sm ex]; cbn in *.
  - by rewrite app_nil_r.
  - unfold array_stale. rewrite Hw. cbn. by rewrite app_nil_r.
Qed.

(** X12.  The array version's [expire] is idempotent: on every state, after
    [expire(c)] a second [expire(c')] with [c' = c] or [c' <= c] returns
    and changes nothing. *)
Theorem array_expire_idempotent (a : ArrayImpl.t) (c c' : float) :
  c' = c \/ (c' <=? c)%float = true ->
  ArrayImpl.expire c' (snd (ArrayImpl.expire c a)) = (Normal tt, snd (ArrayImpl.expire c a)).
Proof.
  intros Hc. apply array_expire_at_rest.
  rewrite array_expire_exec. cbn [snd ArrayImpl.data].
  destruct (drop_while _ _) as [|x l] eqn:Hd; [done|].
  apply drop_while_first in Hd. unfold array_stale in Hd. cbn.
  destruct Hc as [->|Hle]; [done|].
  destruct (timestamp x <? c')%float eqn:E; [|done].
  by rewrite (ltb_leb_trans _ _ _ E Hle) in Hd.
Qed.

Lemma array_expire_idempotent_witness :
  (20000 <=? 30000)%float = true
  /\ ArrayImpl.expire 20000
       (snd (ArrayImpl.expire 30000 (array_after [Push 100 0; Push 101 30000; Push 102 60000])))
     = (Normal tt,
        snd (ArrayImpl.expire 30000 (array_after [Push 100 0; Push 101 30000; Push 102 60000]))).
Proof.
  split; [reflexivity|].
  apply (array_expire_idempotent (array_after [Push 100 0; Push 101 30000; Push 102 60000])
           30000 20000).
  right. reflexivity.
Defined.

Lemma array_step_normal o a : fst (array_step o a) = Normal tt.
Proof. destruct o as [p ts|c]; cbn [array_step]; [done|]. by rewrite array_expire_exec. Qed.

Lemma array_run_app ops1 ops2 a :
  array_run (ops1 ++ ops2) a = array_run ops2 (snd (array_run ops1 a)).
Proof.
  revert a. induction ops1 as [|o ops1 IH]; intros a; cbn [app array_run]; [done|].
  unfold bind. pose proof (array_step_normal o a) as Hn.
  destruct (array_step o a) as [[[]| |] a1]; [apply IH|done|done].
Qed.

Lemma array_after_snoc ops o : array_after (ops ++ [o]) = snd (array_step o (array_after ops)).
Proof.
  unfold array_after. rewrite array_run_app. cbn [array_run]. unfold bind.
  pose proof (array_step_normal o (snd (array_run ops ArrayImpl.constructor))) as Hn.
  by destruct (array_step o _) as [[[]| |] a1].
Qed.

(** X13.  The array version conserves samples: every sequence of [push] and
    [expire] calls on a new buffer returns, and [expiredData] followed by
    [data] is exactly the list of pushed samples, in push order. *)
Theorem array_samples_are_conserved (ops : list op) :
  fst (array_run ops ArrayImpl.constructor) = Normal tt
  /\ ArrayImpl.expiredData (array_after ops) ++ ArrayImpl.data (array_after ops)
     = pushed_samples ops.
Proof.
  split.
  - induction ops as [|o ops IH] using rev_ind; [done|].
    rewrite array_run_app. cbn [array_run]. unfold bind.
    pose proof (array_step_normal o (snd (array_run ops ArrayImpl.constructor))) as Hn.
    by destruct (array_step o _) as [[[]| |] a1].
  - induction ops as [|o ops IH] using rev_ind; [done|].
    rewrite array_after_snoc, pushed_samples_snoc, <- IH.
    destruct o as [p ts|c]; cbn [array_step].
    + cbn. by rewrite app_assoc.
    + rewrite array_expire_exec. cbn [snd ArrayImpl.data ArrayImpl.expiredData].
      by rewrite <- app_assoc, take_drop_while, app_nil_r.
Qed.

Lemma array_run_exact (ops : list int_op) :
  forall a l,
    array_holds_exactly a l ->
    forallb (fun o => 0 <=? amount_of o) ops = true ->
    total l + total_pushed ops < 2 ^ 53 ->
    exists l', array_holds_exactly (snd (array_run (map to_op ops) a)) l' /\ total l' < 2 ^ 53.
Proof.
  induction ops as [|o ops IH]; intros a l Ha Hops Hlt.
  - exists l. split; [exact Ha|]. cbn [total_pushed] in Hlt. lia.
  - cbn [forallb] in Hops. apply andb_true_iff in Hops as [Ho Hops]. apply Z.leb_le in Ho.
    pose proof (total_pushed_nonneg ops Hops) as Hrest.
    cbn [total_pushed] in Hlt.
    destruct Ha as (Hl & Hnn & Hsum).
    pose proof (total_nonneg l Hnn) as Htl.
    cbn [map array_run]. unfold bind.
    destruct o as [z ts|c]; cbn [to_op array_step amount_of] in *.
    + rewrite array_push_exec.
      apply (IH _ (l ++ [(z, ts)])); [|done|rewrite total_app; cbn [total fst]; lia].
      cbn [ArrayImpl.data ArrayImpl.sum].
      split; [by rewrite Hl, map_app|].
      split; [apply Forall_app; split; [done|by repeat constructor]|].
      rewrite Hsum, total_app. cbn [total fst].
      rewrite number_of_Z_add by lia. cbn [ArrayImpl.sum]. f_equal. lia.
    + rewrite array_expire_exec.
      rewrite Hl, take_while_map, drop_while_map.
      set (ev := take_while (fun x => array_stale c (int_sample x)) l) in *.
      set (kept := drop_while (fun x => array_stale c (int_sample x)) l) in *.
      assert (Hsplit : l = ev ++ kept) by (symmetry; apply take_drop_while).
      assert (Hev : Forall (fun x => 0 <= fst x) ev /\ Forall (fun x => 0 <= fst x) kept).
      { apply Forall_app. by rewrite <- Hsplit. }
      destruct Hev as [Hev Hkept].
      pose proof (total_nonneg ev Hev). pose proof (total_nonneg kept Hkept).
      assert (Htot : total l = total ev + total kept) by (rewrite Hsplit at 1; apply total_app).
      apply (IH _ kept); [|done|lia].
      cbn [ArrayImpl.data ArrayImpl.sum].
      split; [done|]. split; [done|].
      rewrite Hsum, Htot. apply sub_prices_exact; [done|lia|lia].
Qed.

(** X14.  The array version's sum invariant: for prices that are
    non-negative integers with a total below 2^53, after every sequence of
    [push] and [expire] calls [getSum()] is exactly the left-to-right sum of
    the prices in [data]. *)
Theorem array_sum_invariant_exact (ops : list int_op) :
  exact_range ops = true ->
  fst (ArrayImpl.getSum (array_after (map to_op ops)))
  = Normal (scan_sum (ArrayImpl.data (array_after (map to_op ops)))).
Proof.
  intros Hr. unfold exact_range in Hr. apply andb_true_iff in Hr as [Hops Hlt].
  apply Z.ltb_lt in Hlt.
  destruct (array_run_exact ops ArrayImpl.constructor []) as (l' & (Hl & Hnn & Hsum) & Hlt').
  { split; [done|]. split; [constructor|reflexivity]. }
  { exact Hops. }
  { cbn [total]. lia. }
  fold (array_after (map to_op ops)) in *.
  unfold ArrayImpl.getSum, gets. cbn [fst]. rewrite Hsum, Hl. f_equal. symmetry.
  by apply scan_sum_exact.
Qed.

Lemma array_sum_invariant_exact_witness :
  exact_range [IPush 100 0; IPush 101 30000; IPush 102 60000; IExpire 30000] = true
  /\ fst (ArrayImpl.getSum
            (array_after (map to_op [IPush 100 0; IPush 101 30000; IPush 102 60000; IExpire 30000])))
     = Normal (scan_sum
                 (ArrayImpl.data
                    (array_after (map to_op [IPush 100 0; IPush 101 30000; IPush 102 60000;
                                             IExpire 30000])))).
Proof.
  split; [reflexivity|].
  apply (array_sum_invariant_exact [IPush 100 0; IPush 101 30000; IPush 102 60000; IExpire 30000]).
  reflexivity.
Defined.

(** ** PriceTicker (Price-Ticker.tsx): the state behind the component *)

(** *** integers as doubles keep their order *)

Lemma canon_key (N : positive) :
  Z.pos N < 2 ^ 53 ->
  sf_key (canon N)
  = (1, Z.pos (digits2_pos N) - 53, Z.pos N * 2 ^ (53 - Z.pos (digits2_pos N))).
Proof.
  intros HN. pose proof (digits_le_53 N HN). unfold canon. cbn [sf_key].
  rewrite shiftl_nat_Z, Z2Nat.id by lia. reflexivity.
Qed.

Lemma canon_le (A B : positive) :
  Z.pos A < 2 ^ 53 -> Z.pos B < 2 ^ 53 ->
  (key_le (sf_key (canon A)) (sf_key (canon B)) <-> Z.pos A <= Z.pos B).
Proof.
  intros HA HB. rewrite !canon_key by done. unfold key_le.
  pose proof (digits2_pos_bounds A) as [HAl HAh]. pose proof (digits2_pos_bounds B) as [HBl HBh].
  pose proof (digits_le_53 A HA). pose proof (digits_le_53 B HB).
  set (dA := Z.pos (digits2_pos A)) in *. set (dB := Z.pos (digits2_pos B)) in *.
  assert (Hmono : forall x y, x < y -> 2 ^ x <= 2 ^ (y - 1)).
  { intros x y Hxy. destruct (Z.le_gt_cases 0 x).
    - apply Z.pow_le_mono_r; lia.
    - rewrite (Z.pow_neg_r 2 x) by lia. apply Z.pow_nonneg. lia. }
  split.
  - intros [?|[_ [Hd|[Hd Hm]]]]; [lia| |].
    + specialize (Hmono dA dB ltac:(lia)). lia.
    + assert (dA = dB) as Heq by lia. rewrite Heq in Hm.
      assert (0 < 2 ^ (53 - dB)) by (apply Z.pow_pos_nonneg; lia). nia.
  - intros Hle. right. split; [done|].
    destruct (Z.lt_trichotomy dA dB) as [Hlt|[Heq|Hgt]].
    + left. lia.
    + right. split; [lia|]. rewrite Heq.
      assert (0 < 2 ^ (53 - dB)) by (apply Z.pow_pos_nonneg; lia). nia.
    + specialize (Hmono dB dA ltac:(lia)). lia.
Qed.

Lemma number_of_Z_leb (a b : Z) :
  0 <= a < 2 ^ 53 -> 0 <= b < 2 ^ 53 ->
  (number_of_Z a <=? number_of_Z b)%float = (a <=? b).
Proof.
  intros Ha Hb. rewrite leb_spec, !Prim2SF_number_of_Z by done.
  destruct a as [|A|A], b as [|B|B]; try lia; try reflexivity.
  pose proof (canon_le A B ltac:(lia) ltac:(lia)) as Hk.
  assert (HnA : canon A <> S754_nan) by (rewrite canon_eq by lia; discriminate).
  assert (HnB : canon B <> S754_nan) by (rewrite canon_eq by lia; discriminate).
  pose proof (SFleb_key _ _ HnA HnB) as Hs.
  destruct (SFleb (canon A) (canon B)); destruct (Z.leb_spec (Z.pos A) (Z.pos B)); try done.
  - exfalso. assert (Z.pos A <= Z.pos B) by (apply Hk, Hs; done). lia.
  - exfalso. assert (false = true) by (apply Hs, Hk; lia). done.
Qed.

Lemma cutoff_exact (n : Z) :
  clock_ok n -> (number_of_Z n - 30000)%float = number_of_Z (n - 30000).
Proof.
  intros [Hlo Hhi]. change 30000%float with (number_of_Z 30000).
  apply number_of_Z_sub; lia.
Qed.

(** *** updateMetrics *)

Lemma on_deque_exec {A} (m : M TimeWindowDeque.t A) t r d' :
  m (deque t) = (r, d') -> on_deque m t = (r, set_deque d' t).
Proof. intros H. unfold on_deque. by rewrite H. Qed.

Lemma updateMetrics_spec p now t :
  inv (deque t) ->
  exists d',
    updateMetrics p now t
    = (Normal tt,
       mk_ticker d' (match last (live (deque t)) with
                     | Some l => move (price l) p
                     | None => trend_state t
                     end))
    /\ inv d'
    /\ live d' = drop_while (stale (now - 30000)%float) (live (deque t) ++ [mkPriceData p now]).
Proof.
  intros Hinv.
  destruct (push_spec p now _ Hinv) as (d1 & Hpush & Hinv1 & Hlive1 & _).
  destruct (expire_spec (now - 30000)%float _ Hinv1) as (d2 & Hexp & Hinv2 & Hlive2 & _).
  exists d2. split; [|split; [done|by rewrite Hlive2, Hlive1]].
  unfold updateMetrics, bind.
  rewrite (on_deque_exec _ _ _ _ (getLatestPrice_live _ Hinv)).
  destruct t as [d tr]. cbn [deque trend_state set_deque] in *.
  destruct (last (live d)) as [l|];
    unfold modify, ret, setTrend, set_deque; cbn [deque trend_state];
    rewrite (on_deque_exec _ (mk_ticker d _) _ _ Hpush);
    unfold set_deque; cbn [deque trend_state];
    rewrite (on_deque_exec _ (mk_ticker d1 _) _ _ Hexp); reflexivity.
Qed.

Lemma run_ticks_inv ticks : forall t,
  inv (deque t) -> exists t', run_ticks ticks t = (Normal tt, t') /\ inv (deque t').
Proof.
  induction ticks as [|[p n] ticks IH]; intros t Hinv; [by exists t|].
  destruct (updateMetrics_spec p (number_of_Z n) t Hinv) as (d' & Hup & Hinv' & _).
  cbn [run_ticks]. unfold bind. rewrite Hup. apply IH. exact Hinv'.
Qed.

Lemma run_ticks_app ticks1 ticks2 t t1 :
  run_ticks ticks1 t = (Normal tt, t1) ->
  run_ticks (ticks1 ++ ticks2) t = run_ticks ticks2 t1.
Proof.
  revert t. induction ticks1 as [|[p n] ticks1 IH]; intros t H.
  - cbn in H. by inversion H.
  - cbn [app run_ticks] in *. unfold bind in *.
    destruct (updateMetrics p (number_of_Z n) t) as [[[]| |] t']; try done.
    by apply IH.
Qed.

Lemma new_ticker_inv : inv (deque new_ticker).
Proof. apply constructor_inv. Qed.

Lemma ticker_after_normal ticks :
  run_ticks ticks new_ticker = (Normal tt, ticker_after ticks) /\ inv (deque (ticker_after ticks)).
Proof.
  destruct (run_ticks_inv ticks _ new_ticker_inv) as (t' & H & Hinv).
  unfold ticker_after. rewrite H. done.
Qed.

Lemma ticker_after_snoc ticks p n :
  exists d',
    ticker_after (ticks ++ [(p, n)])
    = mk_ticker d' (match last (live (deque (ticker_after ticks))) with
                    | Some l => move (price l) p
                    | None => trend_state (ticker_after ticks)
                    end)
    /\ inv d'
    /\ live d' = drop_while (stale (number_of_Z n - 30000)%float)
                   (live (deque (ticker_after ticks)) ++ [mkPriceData p (number_of_Z n)]).
Proof.
  destruct (ticker_after_normal ticks) as [Hrun Hinv].
  destruct (updateMetrics_spec p (number_of_Z n) _ Hinv) as (d' & Hup & Hinv' & Hlive).
  exists d'. split; [|done].
  unfold ticker_after at 1. rewrite (run_ticks_app _ _ _ _ Hrun).
  cbn [run_ticks]. unfold bind. rewrite Hup. reflexivity.
Qed.

Lemma stale_tick c tk :
  0 <= c < 2 ^ 53 -> clock_ok (snd tk) ->
  stale (number_of_Z c) (tick_sample tk) = negb (c <=? snd tk).
Proof.
  intros Hc [Hlo Hhi]. unfold stale, tick_sample. cbn [timestamp].
  rewrite number_of_Z_leb by lia. reflexivity.
Qed.

Lemma drop_while_keeps_last {A} (f : A -> bool) l x :
  f x = false -> last (drop_while f (l ++ [x])) = Some x.
Proof.
  intros Hx. induction l as [|y l IH]; cbn [app drop_while].
  - by rewrite Hx.
  - destruct (f y); [exact IH|].
    change (y :: l ++ [x]) with ((y :: l) ++ [x]). apply last_snoc.
Qed.

Lemma ticker_latest ticks p n :
  clock_ok n ->
  last (live (deque (ticker_after (ticks ++ [(p, n)])))) = Some (mkPriceData p (number_of_Z n)).
Proof.
  intros Hn. destruct (ticker_after_snoc ticks p n) as (d' & -> & _ & Hlive).
  cbn [deque]. rewrite Hlive. apply drop_while_keeps_last.
  rewrite cutoff_exact by done.
  destruct Hn as [Hlo Hhi].
  change (mkPriceData p (number_of_Z n)) with (tick_sample (p, n)).
  rewrite stale_tick; cbn [snd]; unfold clock_ok; lia.
Qed.

(** X15.  After [updateMetrics(newPrice)] at a clock value [now] (an integer
    number of milliseconds, at least 30000 and below 2^53) the sample just
    pushed survives the [expire(now - 30000)] that follows it, whatever
    happened before: every tick returns, [getLatestPrice()] is [newPrice],
    [size()] is at least 1, and [getAverage()] is not [null] but the
    quotient of the running sum by the number of live samples. *)
Theorem newest_price_is_shown (ticks : list tick) (p : float) (n : Z) :
  clock_ok n ->
  let t := ticker_after (ticks ++ [(p, n)]) in
  fst (run_ticks (ticks ++ [(p, n)]) new_ticker) = Normal tt
  /\ fst (TimeWindowDeque.getLatestPrice (deque t)) = Normal (Some p)
  /\ (exists k, fst (TimeWindowDeque.size (deque t)) = Normal k /\ 1 <= k)
  /\ fst (TimeWindowDeque.getAverage (deque t))
     = Normal (Some (TimeWindowDeque.sum (deque t)
                     / number_of_Z (Z.of_nat (length (live (deque t)))))%float).
Proof.
  intros Hn t.
  destruct (ticker_after_normal (ticks ++ [(p, n)])) as [Hrun Hinv].
  pose proof (ticker_latest ticks p n Hn) as Hlast.
  change (ticker_after (ticks ++ [(p, n)])) with t in Hrun, Hinv, Hlast.
  clearbody t.
  assert (Hlen : (1 <= length (live (deque t)))%nat).
  { destruct (live (deque t)); [discriminate Hlast|cbn [length]; lia]. }
  split; [by rewrite Hrun|]. split; [|split].
  - rewrite getLatestPrice_live by done. by rewrite Hlast.
  - exists (Z.of_nat (length (live (deque t)))). rewrite size_live by done. split; [done|lia].
  - rewrite getAverage_exec. cbn [fst].
    rewrite (repr_size _ _ Hinv).
    destruct (Z.ltb_spec 0 (Z.of_nat (length (live (deque t))))); [done|lia].
Qed.

Lemma newest_price_is_shown_witness :
  clock_ok 1700000000000
  /\ fst (TimeWindowDeque.getLatestPrice
            (deque (ticker_after ([(1.5%float, 1699999990000)] ++ [(2.5%float, 1700000000000)]))))
     = Normal (Some 2.5%float).
Proof.
  split; [unfold clock_ok; lia|].
  apply (newest_price_is_shown [(1.5%float, 1699999990000)] 2.5%float 1700000000000).
  unfold clock_ok; lia.
Defined.

(** X16.  The trend is the sign of the last price move: after two successive
    ticks with prices [q] and then [p] (the first at a valid clock value),
    [trend] is ['up'] if [p > q], ['down'] if [p < q], and ['neutral']
    otherwise (equal prices, or a NaN), whatever the ticks before were. *)
Theorem trend_follows_last_move (ticks : list tick) (q p : float) (m n : Z) :
  clock_ok m ->
  trend_state (ticker_after (ticks ++ [(q, m); (p, n)]))
  = (if (q <? p)%float then up else if (p <? q)%float then down else neutral).
Proof.
  intros Hm.
  assert (E : ticks ++ [(q, m); (p, n)] = (ticks ++ [(q, m)]) ++ [(p, n)])
    by (by rewrite <- app_assoc).
  rewrite E.
  destruct (ticker_after_snoc (ticks ++ [(q, m)]) p n) as (d' & Hd & _).
  pose proof (ticker_latest ticks q m Hm) as Hlast.
  rewrite Hd. cbn [trend_state]. rewrite Hlast. reflexivity.
Qed.

Lemma trend_follows_last_move_witness :
  clock_ok 1700000000000
  /\ trend_state (ticker_after ([] ++ [(2.5%float, 1700000000000); (1.5%float, 1700000001000)]))
     = down.
Proof.
  split; [unfold clock_ok; lia|].
  apply (trend_follows_last_move [] 2.5%float 1.5%float 1700000000000 1700000001000).
  unfold clock_ok; lia.
Defined.

(** X17.  A new ticker has the trend ['neutral'], and the first tick leaves
    it so, whatever its price and time: there is no previous price to
    compare with. *)
Theorem trend_starts_neutral (p : float) (now : float) :
  trend_state new_ticker = neutral
  /\ trend_state (snd (updateMetrics p now new_ticker)) = neutral.
Proof.
  split; [done|].
  destruct (updateMetrics_spec p now _ new_ticker_inv) as (d' & -> & _).
  cbn [snd trend_state].
  assert (Hl : live (deque new_ticker) = []) by reflexivity.
  by rewrite Hl.
Qed.

(** *** the 30-second window *)

Lemma drop_while_filter (c : Z) (l : list tick) :
  StronglySorted le_clock l ->
  drop_while (fun x => negb (c <=? snd x)) l = List.filter (fun x => c <=? snd x) l.
Proof.
  induction 1 as [|x l Hs IH Hall]; [done|].
  cbn [drop_while List.filter].
  destruct (Z.leb_spec c (snd x)) as [Hc|Hc]; cbn [negb]; [|exact IH].
  f_equal. clear IH Hs. induction Hall as [|y l Hy Hall IH]; [done|].
  cbn [List.filter]. unfold le_clock in Hy.
  destruct (Z.leb_spec c (snd y)); [by f_equal|lia].
Qed.

Lemma StronglySorted_filter (f : tick -> bool) (l : list tick) :
  StronglySorted le_clock l -> StronglySorted le_clock (List.filter f l).
Proof.
  induction 1 as [|x l Hs IH Hall]; [constructor|].
  cbn [List.filter]. destruct (f x); [|exact IH].
  constructor; [exact IH|].
  clear IH Hs. induction Hall as [|y l Hy Hall IH]; [constructor|].
  cbn [List.filter]. destruct (f y); [by constructor|exact IH].
Qed.

Lemma StronglySorted_snoc_inv (l : list tick) (x : tick) :
  StronglySorted le_clock (l ++ [x]) ->
  StronglySorted le_clock l /\ List.Forall (fun y => snd y <= snd x) l.
Proof.
  induction l as [|y l IH]; intros H; [split; constructor|].
  cbn [app] in H. inversion H as [|? ? Hs Hall]; subst.
  destruct (IH Hs) as [Hs' Hle]. split.
  - constructor; [done|]. apply List.Forall_app in Hall. tauto.
  - constructor; [|done]. apply List.Forall_app in Hall. destruct Hall as [_ Hx].
    by inversion Hx.
Qed.

Lemma StronglySorted_snoc (l : list tick) (x : tick) :
  StronglySorted le_clock l -> List.Forall (fun y => snd y <= snd x) l ->
  StronglySorted le_clock (l ++ [x]).
Proof.
  induction 1 as [|y l Hs IH Hall]; intros Hle; cbn [app].
  - constructor; constructor.
  - inversion Hle; subst. constructor; [by apply IH|].
    apply List.Forall_app. split; [done|]. by constructor.
Qed.

Lemma Forall_filter_tick (P : tick -> Prop) (f : tick -> bool) (l : list tick) :
  List.Forall P l -> List.Forall P (List.filter f l).
Proof.
  induction 1 as [|y l Hy Hall IH]; [constructor|].
  cbn [List.filter]. destruct (f y); [by constructor|exact IH].
Qed.

Lemma filter_filter_le (c c' : Z) (l : list tick) :
  c' <= c ->
  List.filter (fun x => c <=? snd x) (List.filter (fun x => c' <=? snd x) l)
  = List.filter (fun x => c <=? snd x) l.
Proof.
  intros Hc. induction l as [|y l IH]; [done|].
  cbn [List.filter].
  destruct (Z.leb_spec c' (snd y)); cbn [List.filter];
    destruct (Z.leb_spec c (snd y)); try lia; by rewrite IH.
Qed.

Lemma window_snoc (ticks : list tick) (x : tick) :
  window (ticks ++ [x]) = List.filter (fun y => snd x - 30000 <=? snd y) (ticks ++ [x]).
Proof. unfold window. by rewrite last_snoc. Qed.

Lemma window_sorted (ticks : list tick) :
  StronglySorted le_clock ticks -> StronglySorted le_clock (window ticks).
Proof.
  intros H. unfold window. destruct (last ticks); [by apply StronglySorted_filter|constructor].
Qed.

Lemma Forall_window (P : tick -> Prop) (ticks : list tick) :
  List.Forall P ticks -> List.Forall P (window ticks).
Proof.
  intros H. unfold window. destruct (last ticks); [by apply Forall_filter_tick|constructor].
Qed.

Lemma drop_while_stale_ticks (c : Z) (l : list tick) :
  0 <= c < 2 ^ 53 -> List.Forall (fun x => clock_ok (snd x)) l ->
  drop_while (stale (number_of_Z c)) (map tick_sample l)
  = map tick_sample (drop_while (fun x => negb (c <=? snd x)) l).
Proof.
  intros Hc. induction 1 as [|y l Hy Hall IH]; [done|].
  cbn [map drop_while]. rewrite stale_tick by done.
  destruct (negb (c <=? snd y)); [exact IH|reflexivity].
Qed.

Lemma ticker_window (ticks : list tick) :
  StronglySorted le_clock ticks ->
  List.Forall (fun x => clock_ok (snd x)) ticks ->
  live (deque (ticker_after ticks)) = map tick_sample (window ticks).
Proof.
  induction ticks as [|[p n] ticks IH] using rev_ind; intros Hs Hok; [reflexivity|].
  destruct (StronglySorted_snoc_inv _ _ Hs) as [Hs' Hle].
  apply List.Forall_app in Hok. destruct Hok as [Hok' Hn].
  inversion Hn as [|? ? Hn' _]; subst. cbn [snd] in Hn'.
  specialize (IH Hs' Hok').
  destruct (ticker_after_snoc ticks p n) as (d' & Hd & _ & Hlive).
  rewrite Hd. cbn [deque]. rewrite Hlive, IH.
  rewrite cutoff_exact by done.
  change (mkPriceData p (number_of_Z n)) with (tick_sample (p, n)).
  change [tick_sample (p, n)] with (map tick_sample [(p, n)]).
  rewrite <- map_app.
  assert (Hokw : List.Forall (fun x : float * Z => clock_ok (snd x)) (window ticks ++ [(p, n)])).
  { apply List.Forall_app. split; [|exact Hn]. by apply Forall_window. }
  destruct Hn' as [Hlo Hhi].
  rewrite drop_while_stale_ticks by (done || lia).
  f_equal. rewrite (window_snoc ticks (p, n)). cbn [snd].
  assert (Hlew : List.Forall (fun y : float * Z => snd y <= n) (window ticks)).
  { by apply (Forall_window (fun y => snd y <= n)). }
  rewrite drop_while_filter
    by (apply StronglySorted_snoc; [by apply window_sorted|exact Hlew]).
  rewrite !List.filter_app. f_equal.
  unfold window. destruct (last ticks) as [[q m]|] eqn:Hlast.
  - cbn [snd]. apply filter_filter_le.
    assert (Hin : In (q, m) ticks).
    { clear -Hlast. induction ticks as [|y l IH]; [done|].
      destruct l as [|z l]; [inversion Hlast; by left|right; by apply IH]. }
    rewrite List.Forall_forall in Hle. specialize (Hle _ Hin). cbn [snd] in Hle. lia.
  - destruct ticks as [|y l]; [done|].
    exfalso. clear -Hlast. revert y Hlast. induction l as [|z l IH]; intros y H; [done|].
    by apply (IH z).
Qed.

(** X18.  The ticker holds exactly the last 30 seconds.  When the ticks
    arrive in clock order, the live samples after the last tick, at time
    [n], are exactly the ticks with time at least [n - 30000], in arrival
    order: [getHistory()], [getValues()] and [size()] are those of that
    window. *)
Theorem window_is_thirty_seconds (ticks : list tick) :
  Sorted le_clock ticks ->
  List.Forall (fun x => clock_ok (snd x)) ticks ->
  let t := ticker_after ticks in
  fst (TimeWindowDeque.getHistory (deque t)) = Normal (map Some (map tick_sample (window ticks)))
  /\ fst (TimeWindowDeque.getValues (deque t)) = Normal (map fst (window ticks))
  /\ fst (TimeWindowDeque.size (deque t)) = Normal (Z.of_nat (length (window ticks))).
Proof.
  intros Hs Hok t.
  assert (Hss : StronglySorted le_clock ticks).
  { apply Sorted_StronglySorted; [|done]. intros a b c. unfold le_clock. lia. }
  destruct (ticker_after_normal ticks) as [_ Hinv].
  pose proof (ticker_window ticks Hss Hok) as Hlive.
  change (ticker_after ticks) with t in Hinv, Hlive. clearbody t.
  rewrite getHistory_live, getValues_live, size_live by done.
  rewrite Hlive. cbn [fst]. split; [done|]. split.
  - f_equal. rewrite map_map. reflexivity.
  - by rewrite length_map.
Qed.

Lemma window_is_thirty_seconds_witness :
  fst (TimeWindowDeque.getValues
         (deque (ticker_after [(1.5%float, 1700000000000); (2.5%float, 1700000020000);
                               (3.5%float, 1700000040000)])))
  = Normal [2.5%float; 3.5%float].
Proof.
  apply (window_is_thirty_seconds
           [(1.5%float, 1700000000000); (2.5%float, 1700000020000); (3.5%float, 1700000040000)]).
  - repeat constructor; unfold le_clock; cbn; lia.
  - repeat constructor; unfold clock_ok; cbn; lia.
Defined.

Lemma push_ring_capacity p ts s :
  inv s ->
  ring_capacity (snd (TimeWindowDeque.push p ts s))
  = if Z.of_nat (length (live s)) =? ring_capacity s then ring_capacity s * 2
    else ring_capacity s.
Proof.
  intros Hinv. pose proof Hinv as [Hwf _].
  unfold TimeWindowDeque.push, bind.
  rewrite (on_data_exec _ _ _ _ (push_exec (mkPriceData p ts) _ Hwf)).
  unfold ring_capacity. cbn. rewrite <- (repr_size _ _ Hinv).
  by destruct (CircularDeque._size (TimeWindowDeque.data s)
               =? CircularDeque.capacity (TimeWindowDeque.data s)).
Qed.

Lemma expire_loop_ring_capacity c fuel : forall s,
  ring_capacity (snd (TimeWindowDeque.expire_loop fuel c s)) = ring_capacity s.
Proof.
  induction fuel as [|fuel IH]; intros s; [reflexivity|].
  rewrite expire_loop_S.
  destruct (0 <? CircularDeque._size (TimeWindowDeque.data s)); [|reflexivity].
  destruct (arr_get _ _) as [f|]; [|reflexivity].
  destruct (c <=? timestamp f)%float; [reflexivity|].
  rewrite IH. reflexivity.
Qed.

Lemma expire_ring_capacity c s :
  ring_capacity (snd (TimeWindowDeque.expire c s)) = ring_capacity s.
Proof. apply expire_loop_ring_capacity. Qed.

Lemma ticker_capacity_snoc ticks p n :
  ring_capacity (deque (ticker_after (ticks ++ [(p, n)])))
  = if Z.of_nat (length (live (deque (ticker_after ticks))))
       =? ring_capacity (deque (ticker_after ticks))
    then ring_capacity (deque (ticker_after ticks)) * 2
    else ring_capacity (deque (ticker_after ticks)).
Proof.
  destruct (ticker_after_normal ticks) as [Hrun Hinv].
  unfold ticker_after at 1. rewrite (run_ticks_app _ _ _ _ Hrun).
  set (t := ticker_after ticks) in *. clearbody t.
  destruct (push_spec p (number_of_Z n) _ Hinv) as (d1 & Hpush & Hinv1 & _).
  destruct (expire_spec (number_of_Z n - 30000)%float _ Hinv1) as (d2 & Hexp & _).
  pose proof (push_ring_capacity p (number_of_Z n) _ Hinv) as Hc1. rewrite Hpush in Hc1.
  pose proof (expire_ring_capacity (number_of_Z n - 30000)%float d1) as Hc2. rewrite Hexp in Hc2.
  cbn [snd] in Hc1, Hc2. rewrite <- Hc1, <- Hc2.
  destruct (updateMetrics_spec p (number_of_Z n) t Hinv) as (d' & Hup & _).
  cbn [run_ticks]. unfold bind, ret.
  unfold updateMetrics, bind in *.
  rewrite (on_deque_exec _ _ _ _ (getLatestPrice_live _ Hinv)).
  destruct t as [d tr]. cbn [deque trend_state] in *.
  destruct (last (live d)) as [l|];
    unfold modify, ret, setTrend, set_deque; cbn [deque trend_state];
    rewrite (on_deque_exec _ (mk_ticker d _) _ _ Hpush);
    unfold set_deque; cbn [deque trend_state];
    rewrite (on_deque_exec _ (mk_ticker d1 _) _ _ Hexp); reflexivity.
Qed.

Lemma StronglySorted_filter_rel (R : tick -> tick -> Prop) (f : tick -> bool) (l : list tick) :
  StronglySorted R l -> StronglySorted R (List.filter f l).
Proof.
  induction 1 as [|x l Hs IH Hall]; [constructor|].
  cbn [List.filter]. destruct (f x); [|exact IH].
  constructor; [exact IH|]. by apply Forall_filter_tick.
Qed.

Lemma StronglySorted_snoc_inv_rel (R : tick -> tick -> Prop) (l : list tick) (x : tick) :
  StronglySorted R (l ++ [x]) -> StronglySorted R l /\ List.Forall (fun y => R y x) l.
Proof.
  induction l as [|y l IH]; intros H; [split; constructor|].
  cbn [app] in H. inversion H as [|? ? Hs Hall]; subst.
  destruct (IH Hs) as [Hs' Hle]. apply List.Forall_app in Hall. destruct Hall as [Hl Hx].
  split; constructor; try done. by inversion Hx.
Qed.

Lemma spaced_trans (a b c : tick) : spaced a b -> spaced b c -> spaced a c.
Proof. unfold spaced. lia. Qed.

Lemma spaced_span (hi : Z) (l : list tick) : forall x,
  StronglySorted spaced (x :: l) -> List.Forall (fun y => snd y <= hi) (x :: l) ->
  snd x + 1000 * Z.of_nat (length l) <= hi.
Proof.
  induction l as [|y l IH]; intros x Hs Hhi.
  - inversion Hhi; subst. cbn [length]. lia.
  - inversion Hs as [|? ? Hs' Hall]; subst. inversion Hall as [|? ? Hxy _]; subst.
    inversion Hhi as [|? ? _ Hhi']; subst.
    specialize (IH y Hs' Hhi'). unfold spaced in Hxy. cbn [length]. lia.
Qed.

Lemma StronglySorted_spaced_le (l : list tick) :
  StronglySorted spaced l -> StronglySorted le_clock l.
Proof.
  induction 1 as [|x l Hs IH Hall]; constructor; [done|].
  eapply List.Forall_impl; [|exact Hall]. unfold spaced, le_clock. intros; lia.
Qed.

Lemma Forall_filter_true (f : tick -> bool) (l : list tick) :
  List.Forall (fun y => f y = true) (List.filter f l).
Proof.
  induction l as [|y l IH]; [constructor|].
  cbn [List.filter]. destruct (f y) eqn:E; [by constructor|exact IH].
Qed.

Lemma window_bound (ticks : list tick) :
  StronglySorted spaced ticks -> (length (window ticks) <= 31)%nat.
Proof.
  intros Hs. destruct ticks as [|x0 l0] using rev_ind; [cbn; lia|]. clear IHl0.
  rewrite window_snoc.
  destruct (StronglySorted_snoc_inv_rel _ _ _ Hs) as [_ Hle].
  assert (Hhi : List.Forall (fun y => snd y <= snd x0) (l0 ++ [x0])).
  { apply List.Forall_app. split.
    - eapply List.Forall_impl; [|exact Hle]. unfold spaced. intros; lia.
    - constructor; [lia|constructor]. }
  pose proof (StronglySorted_filter_rel _ (fun y => snd x0 - 30000 <=? snd y) _ Hs) as Hsf.
  pose proof (Forall_filter_tick _ (fun y => snd x0 - 30000 <=? snd y) _ Hhi) as Hhif.
  pose proof (Forall_filter_true (fun y => snd x0 - 30000 <=? snd y) (l0 ++ [x0])) as Hlo.
  revert Hsf Hhif Hlo.
  generalize (List.filter (fun y : tick => snd x0 - 30000 <=? snd y) (l0 ++ [x0])).
  intros [|y l] Hsf Hhif Hlo; [cbn [length]; lia|].
  pose proof (spaced_span _ _ _ Hsf Hhif) as Hspan.
  inversion Hlo as [|? ? Hy _]; subst. apply Z.leb_le in Hy.
  cbn [length]. lia.
Qed.

(** X19.  With ticks at least one second apart, as the simulated feed
    schedules them, the ticker never holds more than 31 samples and the
    ring created by [new TimeWindowDeque()] keeps its default capacity 32:
    [_grow] never runs. *)
Theorem default_capacity_suffices (ticks : list tick) :
  Sorted spaced ticks ->
  List.Forall (fun x => clock_ok (snd x)) ticks ->
  let t := ticker_after ticks in
  ring_capacity (deque t) = 32
  /\ (exists k, fst (TimeWindowDeque.size (deque t)) = Normal k /\ k <= 31).
Proof.
  intros Hs Hok t. subst t.
  assert (Hss : StronglySorted spaced ticks).
  { apply Sorted_StronglySorted; [|done]. intros a b c. apply spaced_trans. }
  clear Hs.
  assert (Hlen : forall l, StronglySorted spaced l -> List.Forall (fun x => clock_ok (snd x)) l ->
                 (length (live (deque (ticker_after l))) <= 31)%nat).
  { intros l Hl Hokl. rewrite ticker_window by (done || by apply StronglySorted_spaced_le).
    rewrite length_map. by apply window_bound. }
  split.
  - induction ticks as [|[p n] ticks IH] using rev_ind; [reflexivity|].
    destruct (StronglySorted_snoc_inv_rel _ _ _ Hss) as [Hss' _].
    apply List.Forall_app in Hok. destruct Hok as [Hok' _].
    specialize (IH Hok' Hss'). specialize (Hlen ticks Hss' Hok').
    pose proof (ticker_capacity_snoc ticks p n) as Hc.
    rewrite Hc, IH.
    destruct (Z.eqb_spec (Z.of_nat (length (live (deque (ticker_after ticks))))) 32); [lia|done].
  - destruct (ticker_after_normal ticks) as [_ Hinv].
    exists (Z.of_nat (length (live (deque (ticker_after ticks))))).
    rewrite size_live by done. split; [done|].
    specialize (Hlen ticks Hss Hok). lia.
Qed.

Lemma default_capacity_suffices_witness :
  ring_capacity (deque (ticker_after [(1.5%float, 1700000000000); (2.5%float, 1700000001000)])) = 32.
Proof.
  apply (default_capacity_suffices [(1.5%float, 1700000000000); (2.5%float, 1700000001000)]).
  - repeat constructor; unfold spaced; cbn; lia.
  - repeat constructor; unfold clock_ok; cbn; lia.
Defined.

(** ** TradingPlatform (trading-platform.tsx): the watchlist selection *)

Module PlatformFacts.
Import TradingPlatform.

Lemma handle_listed sel e :
  In sel (map symbol watchlist) -> In (handle sel e) (map symbol watchlist).
Proof.
  intros Hin.
  assert (H : forall i, In (match sidebar sel !! i with Some it => onClick it | None => sel end)
                          (map symbol watchlist)).
  { intros i. do 8 (destruct i as [|i]; [cbn; tauto|]). exact Hin. }
  destruct e as [i|i]; apply H.
Qed.

Lemma selected_listed events : In (selected_after events) (map symbol watchlist).
Proof.
  unfold selected_after.
  assert (H : In initial_selectedSymbol (map symbol watchlist)) by (cbn; tauto).
  revert H. generalize initial_selectedSymbol.
  induction events as [|e events IH]; intros sel H; [exact H|].
  cbn [fold_left]. apply IH. by apply handle_listed.
Qed.

End PlatformFacts.
Import PlatformFacts.

(** X20.  After any sequence of clicks on sidebar items and ticker cards,
    [selectedSymbol] is the symbol of a watchlist entry, exactly that entry
    is rendered with [active = true], all others with [active = false], and
    the sidebar and the ticker grid highlight the same entry. *)
Theorem exactly_one_is_active (events : list TradingPlatform.event) :
  let sel := TradingPlatform.selected_after events in
  map TradingPlatform.active (TradingPlatform.tickerGrid sel)
  = map TradingPlatform.active (TradingPlatform.sidebar sel)
  /\ exists i stock,
       TradingPlatform.watchlist !! i = Some stock
       /\ sel = TradingPlatform.symbol stock
       /\ map TradingPlatform.active (TradingPlatform.sidebar sel)
          = <[i := true]> (replicate (length TradingPlatform.watchlist) false).
Proof.
  intros sel. split; [reflexivity|].
  pose proof (selected_listed events) as Hin. fold sel in Hin. clearbody sel.
  cbn in Hin.
  destruct Hin as [<-|[<-|[<-|[<-|[<-|[<-|[<-|[<-|[]]]]]]]]].
  - exists 0%nat; eexists; repeat split.
  - exists 1%nat; eexists; repeat split.
  - exists 2%nat; eexists; repeat split.
  - exists 3%nat; eexists; repeat split.
  - exists 4%nat; eexists; repeat split.
  - exists 5%nat; eexists; repeat split.
  - exists 6%nat; eexists; repeat split.
  - exists 7%nat; eexists; repeat split.
Qed.

(** X21.  The last click decides: after a click on the [i]-th sidebar item
    or the [i]-th ticker card, [selectedSymbol] is the symbol of the
    [i]-th watchlist entry whatever was selected before, and the [j]-th
    ticker card is active if and only if [j = i]. *)
Theorem last_click_selects (events : list TradingPlatform.event) (i : nat)
    (stock : TradingPlatform.StockSymbol) :
  TradingPlatform.watchlist !! i = Some stock ->
  TradingPlatform.selected_after (events ++ [TradingPlatform.ClickItem i])
  = TradingPlatform.symbol stock
  /\ TradingPlatform.selected_after (events ++ [TradingPlatform.ClickTicker i])
     = TradingPlatform.symbol stock
  /\ forall j, (TradingPlatform.active <$> TradingPlatform.tickerGrid (TradingPlatform.symbol stock) !! j)
               = Some true <-> j = i.
Proof.
  intros Hi. unfold TradingPlatform.selected_after. rewrite !fold_left_app. cbn [fold_left].
  generalize (fold_left TradingPlatform.handle events TradingPlatform.initial_selectedSymbol).
  intros sel.
  do 8 (destruct i as [|i];
        [inversion Hi; subst; split; [reflexivity|]; split; [reflexivity|];
         intros j;
         do 8 (destruct j as [|j]; [cbn; split; (done || lia)|]);
         cbn; split; (done || lia)|]).
  done.
Qed.

Lemma last_click_selects_witness :
  TradingPlatform.selected_after
    ([TradingPlatform.ClickItem 3%nat] ++ [TradingPlatform.ClickItem 1%nat]) = "MSFT".
Proof.
  apply (last_click_selects [TradingPlatform.ClickItem 3%nat] 1%nat
           (TradingPlatform.mkStockSymbol "MSFT" "Microsoft Corporation")).
  reflexivity.
Defined.
